(** * Residual connections notebook: blocks, topologies and the training loop

    A shallow embedding of [residual-connections.ipynb]:
    - the three [nn.Module] classes [Block], [ResBlock] and [AltBlock];
    - the four [nn.Sequential] topologies [net0] .. [net3];
    - the function [train_loop].

    The tensor library is an external collaborator. Its operations are the
    methods of the class [TensorOps] (and [HeadOps] for the classification
    head); the modules of the notebook are written once, over any
    implementation of these classes. Two implementations are given: [ShapeLib]
    runs a forward pass on shapes only (which calls raise on the shape of
    their input, the modules being in training mode), and [ZLib] is a small
    interpreter on integer tensors. A call that raises in Python returns
    [None] here. *)

From Stdlib Require Import ZArith QArith Lia List.
From stdpp Require Import base option list.

(** ** Python values used as flags *)

(** The activation flag [rl] of [Block] receives [True] (the default) and
    [None]; [forward] tests it with [if self.rl]. *)
Inductive PyFlag : Type :=
  | PyNone
  | PyBool (b : bool).

Definition truthy (v : PyFlag) : bool :=
  match v with
  | PyNone => false
  | PyBool b => b
  end.

(** ** The tensor library *)

Definition Shape : Type := list nat.

(** Operations used inside the blocks. [conv2d i o k p w b x] is the call of
    [nn.Conv2d(i, o, k, padding=p)] with weight [w] and bias [b];
    [batch_norm c g b x] is the call of [nn.BatchNorm2d(c)] with affine
    parameters [g] and [b]; [tadd] is [+] on tensors. *)
Class TensorOps (T : Type) : Type := {
  tshape : T -> Shape;
  zeros : Shape -> T;
  conv2d : nat -> nat -> nat -> nat -> T -> T -> T -> option T;
  batch_norm : nat -> T -> T -> T -> option T;
  relu : T -> T;
  tadd : T -> T -> option T
}.

(** Operations of the classification head: [nn.AdaptiveAvgPool2d(1)],
    [nn.Flatten()] and [nn.Linear(i, o)]. *)
Class HeadOps (T : Type) : Type := {
  adaptive_avg_pool2d : nat -> T -> option T;
  flatten : T -> option T;
  linear : nat -> nat -> T -> T -> T -> option T
}.

(** Laws of the library used by the algebraic properties of the blocks. *)
Class ZeroLaws (T : Type) `{TensorOps T} : Prop := {
  tshape_zeros : forall s, tshape (zeros s) = s;
  relu_zeros : forall s, relu (zeros s) = zeros s;
  batch_norm_zero_affine : forall c g b x y,
    g = zeros (tshape g) -> b = zeros (tshape b) ->
    batch_norm c g b x = Some y -> y = zeros (tshape x)
}.

Class AddComm (T : Type) `{TensorOps T} : Prop :=
  tadd_comm : forall x y : T, tadd x y = tadd y x.

(** ** Library modules with their learnable parameters *)

Record Conv2d (T : Type) : Type := mkConv2d {
  in_channels : nat;
  out_channels : nat;
  kernel_size : nat;
  padding : nat;
  conv_weight : T;
  conv_bias : T
}.

Record BatchNorm2d (T : Type) : Type := mkBatchNorm2d {
  num_features : nat;
  bn_weight : T;
  bn_bias : T
}.

Record Linear (T : Type) : Type := mkLinear {
  in_features : nat;
  out_features : nat;
  lin_weight : T;
  lin_bias : T
}.

Arguments mkConv2d {T}.
Arguments in_channels {T}.
Arguments out_channels {T}.
Arguments kernel_size {T}.
Arguments padding {T}.
Arguments conv_weight {T}.
Arguments conv_bias {T}.
Arguments mkBatchNorm2d {T}.
Arguments num_features {T}.
Arguments bn_weight {T}.
Arguments bn_bias {T}.
Arguments mkLinear {T}.
Arguments in_features {T}.
Arguments out_features {T}.
Arguments lin_weight {T}.
Arguments lin_bias {T}.

Definition Conv2d_call {T} `{TensorOps T} (m : Conv2d T) (x : T) : option T :=
  conv2d (in_channels m) (out_channels m) (kernel_size m) (padding m)
         (conv_weight m) (conv_bias m) x.

Definition BatchNorm2d_call {T} `{TensorOps T} (m : BatchNorm2d T) (x : T)
  : option T :=
  batch_norm (num_features m) (bn_weight m) (bn_bias m) x.

Definition Linear_call {T} `{HeadOps T} (m : Linear T) (x : T) : option T :=
  linear (in_features m) (out_features m) (lin_weight m) (lin_bias m) x.

(** The values the library draws for the parameters of one [Block] when it is
    constructed. *)
Record BlockParams (T : Type) : Type := mkBlockParams {
  init_conv_weight : T;
  init_conv_bias : T;
  init_bn_weight : T;
  init_bn_bias : T
}.

Arguments mkBlockParams {T}.
Arguments init_conv_weight {T}.
Arguments init_conv_bias {T}.
Arguments init_bn_weight {T}.
Arguments init_bn_bias {T}.

(** ** class Block *)

Module Block.

Record t (T : Type) : Type := mk {
  c_in : nat;
  c_out : nat;
  fs : nat;
  rl : PyFlag;
  conv : Conv2d T;
  norm : BatchNorm2d T
}.

Arguments mk {T}.
Arguments c_in {T}.
Arguments c_out {T}.
Arguments fs {T}.
Arguments rl {T}.
Arguments conv {T}.
Arguments norm {T}.

(** Defaults of [__init__(self,c_in,c_out,fs,p=0,rl = True)]. *)
Definition default_p : nat := 0.
Definition default_rl : PyFlag := PyBool true.

Definition init {T} (c_in c_out fs p : nat) (rl : PyFlag) (w : BlockParams T)
  : t T :=
  {| c_in := c_in; c_out := c_out; fs := fs; rl := rl;
     conv := mkConv2d c_in c_out fs p (init_conv_weight w) (init_conv_bias w);
     norm := mkBatchNorm2d c_out (init_bn_weight w) (init_bn_bias w) |}.

(** [self.norm(self.conv(x))] *)
Definition norm_conv {T} `{TensorOps T} (self : t T) (x : T) : option T :=
  Conv2d_call (conv self) x ≫= BatchNorm2d_call (norm self).

Definition forward {T} `{TensorOps T} (self : t T) (x : T) : option T :=
  if truthy (rl self)
  then relu <$> norm_conv self x
  else norm_conv self x.

(** All learnable parameters of the unit are zero tensors. *)
Definition zeroed {T} `{TensorOps T} (self : t T) : Prop :=
  conv_weight (conv self) = zeros (tshape (conv_weight (conv self))) /\
  conv_bias (conv self) = zeros (tshape (conv_bias (conv self))) /\
  bn_weight (norm self) = zeros (tshape (bn_weight (norm self))) /\
  bn_bias (norm self) = zeros (tshape (bn_bias (norm self))).

End Block.

(** ** class ResBlock *)

Module ResBlock.

Record t (T : Type) : Type := mk {
  nc : nat;
  fs : nat;
  a : Block.t T;
  b : Block.t T
}.

Arguments mk {T}.
Arguments nc {T}.
Arguments fs {T}.
Arguments a {T}.
Arguments b {T}.

Definition init {T} (nc fs : nat) (wa wb : BlockParams T) : t T :=
  {| nc := nc; fs := fs;
     a := Block.init nc nc fs 1 Block.default_rl wa;
     b := Block.init nc nc fs 1 PyNone wb |}.

(** [self.a(self.b(x))] *)
Definition branch {T} `{TensorOps T} (self : t T) (x : T) : option T :=
  Block.forward (b self) x ≫= Block.forward (a self).

Definition forward {T} `{TensorOps T} (self : t T) (x : T) : option T :=
  y ← branch self x;
  relu <$> tadd x y.

End ResBlock.

(** ** class AltBlock *)

Module AltBlock.

Record t (T : Type) : Type := mk {
  nc : nat;
  fs1 : nat;
  fs2 : nat;
  a : Block.t T;
  b : Block.t T;
  c : Block.t T
}.

Arguments mk {T}.
Arguments nc {T}.
Arguments fs1 {T}.
Arguments fs2 {T}.
Arguments a {T}.
Arguments b {T}.
Arguments c {T}.

Definition init {T} (nc fs1 fs2 : nat) (wa wb wc : BlockParams T) : t T :=
  {| nc := nc; fs1 := fs1; fs2 := fs2;
     a := Block.init nc nc fs1 Block.default_p Block.default_rl wa;
     b := Block.init nc nc fs1 Block.default_p PyNone wb;
     c := Block.init nc nc fs2 Block.default_p PyNone wc |}.

(** [self.a(self.b(x))] *)
Definition path_a {T} `{TensorOps T} (self : t T) (x : T) : option T :=
  Block.forward (b self) x ≫= Block.forward (a self).

(** [self.c(x)] *)
Definition path_b {T} `{TensorOps T} (self : t T) (x : T) : option T :=
  Block.forward (c self) x.

Definition forward {T} `{TensorOps T} (self : t T) (x : T) : option T :=
  y ← path_a self x;
  z ← path_b self x;
  relu <$> tadd y z.

(** The same unit with the two paths computed, and summed, in the other
    order. *)
Definition forward_swapped {T} `{TensorOps T} (self : t T) (x : T)
  : option T :=
  z ← path_b self x;
  y ← path_a self x;
  relu <$> tadd z y.

End AltBlock.

(** ** nn.Sequential and the four topologies *)

Inductive Layer (T : Type) : Type :=
  | LBlock (m : Block.t T)
  | LResBlock (m : ResBlock.t T)
  | LAltBlock (m : AltBlock.t T)
  | LAdaptiveAvgPool2d (output_size : nat)
  | LFlatten
  | LLinear (m : Linear T).

Arguments LBlock {T}.
Arguments LResBlock {T}.
Arguments LAltBlock {T}.
Arguments LAdaptiveAvgPool2d {T}.
Arguments LFlatten {T}.
Arguments LLinear {T}.

Definition Layer_call {T} `{TensorOps T} `{HeadOps T} (m : Layer T) (x : T)
  : option T :=
  match m with
  | LBlock m => Block.forward m x
  | LResBlock m => ResBlock.forward m x
  | LAltBlock m => AltBlock.forward m x
  | LAdaptiveAvgPool2d n => adaptive_avg_pool2d n x
  | LFlatten => flatten x
  | LLinear m => Linear_call m x
  end.

(** [nn.Sequential(...)] feeds the output of each module to the next. *)
Fixpoint Sequential_forward {T} `{TensorOps T} `{HeadOps T}
  (ms : list (Layer T)) (x : T) : option T :=
  match ms with
  | [] => Some x
  | m :: ms' => Layer_call m x ≫= Sequential_forward ms'
  end.

(** [Block(c_in, c_out, fs)] with both defaults. *)
Definition Block3 {T} (c_in c_out fs : nat) (w : BlockParams T) : Layer T :=
  LBlock (Block.init c_in c_out fs Block.default_p Block.default_rl w).

Section Topologies.
Context {T : Type}.
(** [ws k] are the initial parameters of the [k]-th [Block] constructed
    (counting the inner ones of [ResBlock] and [AltBlock]); [wl], [bl] those
    of the final [nn.Linear(64,10)]. *)
Variable ws : nat -> BlockParams T.
Variables wl bl : T.

Definition head : list (Layer T) :=
  [ LAdaptiveAvgPool2d 1; LFlatten; LLinear (mkLinear 64 10 wl bl) ].

Definition net0 : list (Layer T) :=
  [ Block3 3 6 5 (ws 0);
    Block3 6 16 3 (ws 1);
    Block3 16 16 3 (ws 2);
    Block3 16 16 3 (ws 3);
    Block3 16 32 3 (ws 4);
    Block3 32 32 3 (ws 5);
    Block3 32 32 3 (ws 6);
    Block3 32 64 3 (ws 7);
    Block3 64 64 3 (ws 8);
    Block3 64 64 3 (ws 9) ] ++ head.

Definition net1 : list (Layer T) :=
  [ Block3 3 6 5 (ws 0);
    Block3 6 16 3 (ws 1);
    Block3 16 16 5 (ws 2);
    Block3 16 32 3 (ws 3);
    Block3 32 32 5 (ws 4);
    Block3 32 64 3 (ws 5);
    Block3 64 64 5 (ws 6) ] ++ head.

Definition net2 : list (Layer T) :=
  [ Block3 3 6 5 (ws 0);
    Block3 6 16 3 (ws 1);
    LResBlock (ResBlock.init 16 3 (ws 2) (ws 3));
    Block3 16 32 3 (ws 4);
    LResBlock (ResBlock.init 32 3 (ws 5) (ws 6));
    Block3 32 64 3 (ws 7);
    LResBlock (ResBlock.init 64 3 (ws 8) (ws 9)) ] ++ head.

Definition net3 : list (Layer T) :=
  [ Block3 3 6 5 (ws 0);
    Block3 6 16 3 (ws 1);
    LAltBlock (AltBlock.init 16 3 5 (ws 2) (ws 3) (ws 4));
    Block3 16 32 3 (ws 5);
    LAltBlock (AltBlock.init 32 3 5 (ws 6) (ws 7) (ws 8));
    Block3 32 64 3 (ws 9);
    LAltBlock (AltBlock.init 64 3 5 (ws 10) (ws 11) (ws 12)) ] ++ head.

End Topologies.

(** ** The library on shapes

    A tensor is represented by its shape; each operation returns the shape of
    its result, or [None] where the library raises. Convolutions have stride
    1, so a [k]-wide kernel with padding [p] maps a side [h] to
    [h + 2p - k + 1] and needs [k <= h + 2p]. Normalisation is that of a
    module in training mode, the mode in which modules are built and which
    [model.train()] sets: it raises on an input with a single value per
    channel. Sums broadcast. *)

Definition conv_side (h k p : nat) : nat := h + 2 * p - k + 1.

Definition shape_conv2d (i o k p : nat) (s : Shape) : option Shape :=
  match s with
  | [n; c; h; w] =>
      if (c =? i) && (k <=? h + 2 * p) && (k <=? w + 2 * p)
      then Some [n; o; conv_side h k p; conv_side w k p]
      else None
  | _ => None
  end.

(** [nn.BatchNorm2d(f)] wants a 4-dimensional input with [f] channels and,
    in training mode, more than one value per channel: it raises when
    [n * h * w = 1]. *)
Definition shape_batch_norm (f : nat) (s : Shape) : option Shape :=
  match s with
  | [n; c; h; w] =>
      if (c =? f) && negb (n * h * w =? 1) then Some s else None
  | _ => None
  end.

(** Broadcasting of two sizes of one dimension: equal sizes, or one of them
    is 1. *)
Definition broadcast_dim (a b : nat) : option nat :=
  if a =? b then Some a
  else if a =? 1 then Some b
  else if b =? 1 then Some a
  else None.

(** Broadcasting of two shapes given from their last dimension on; the
    dimensions one shape lacks are taken from the other. *)
Fixpoint broadcast_rev (s1 s2 : list nat) : option (list nat) :=
  match s1, s2 with
  | [], _ => Some s2
  | _, [] => Some s1
  | a :: s1', b :: s2' =>
      d ← broadcast_dim a b;
      r ← broadcast_rev s1' s2';
      Some (d :: r)
  end.

(** Shape of [x + y]. *)
Definition shape_add (s1 s2 : Shape) : option Shape :=
  reverse <$> broadcast_rev (reverse s1) (reverse s2).

Definition shape_adaptive_avg_pool2d (o : nat) (s : Shape) : option Shape :=
  match s with
  | [n; c; h; w] => Some [n; c; o; o]
  | _ => None
  end.

Definition numel (s : Shape) : nat := fold_right Nat.mul 1 s.

(** [nn.Flatten()] keeps the first dimension and merges the others. *)
Definition shape_flatten (s : Shape) : option Shape :=
  match s with
  | [] => None
  | n :: rest => Some [n; numel rest]
  end.

Definition shape_linear (i o : nat) (s : Shape) : option Shape :=
  match s with
  | [n; f] => if f =? i then Some [n; o] else None
  | _ => None
  end.

#[export] Instance ShapeLib : TensorOps Shape := {|
  tshape := fun s => s;
  zeros := fun s => s;
  conv2d := fun i o k p _ _ s => shape_conv2d i o k p s;
  batch_norm := fun f _ _ s => shape_batch_norm f s;
  relu := fun s => s;
  tadd := shape_add
|}.

#[export] Instance ShapeHead : HeadOps Shape := {|
  adaptive_avg_pool2d := shape_adaptive_avg_pool2d;
  flatten := shape_flatten;
  linear := fun i o _ _ s => shape_linear i o s
|}.

(** A library agrees with the shape rules when each operation succeeds
    exactly where the rule does, with the shape the rule gives. *)
Class ShapeLaws (T : Type) `{TensorOps T} : Prop := {
  conv2d_shape : forall i o k p w b x,
    tshape <$> conv2d i o k p w b x = shape_conv2d i o k p (tshape x);
  batch_norm_shape : forall c g b x,
    tshape <$> batch_norm c g b x = shape_batch_norm c (tshape x);
  relu_shape : forall x, tshape (relu x) = tshape x;
  tadd_shape : forall x y,
    tshape <$> tadd x y = shape_add (tshape x) (tshape y)
}.

Class HeadShapeLaws (T : Type) `{TensorOps T} `{HeadOps T} : Prop := {
  adaptive_avg_pool2d_shape : forall o x,
    tshape <$> adaptive_avg_pool2d o x
    = shape_adaptive_avg_pool2d o (tshape x);
  flatten_shape : forall x, tshape <$> flatten x = shape_flatten (tshape x);
  linear_shape : forall i o w b x,
    tshape <$> linear i o w b x = shape_linear i o (tshape x)
}.

(** *** A module seen through a map on its parameters *)

Definition Conv2d_map {T U} (f : T -> U) (m : Conv2d T) : Conv2d U :=
  mkConv2d (in_channels m) (out_channels m) (kernel_size m) (padding m)
           (f (conv_weight m)) (f (conv_bias m)).

Definition BatchNorm2d_map {T U} (f : T -> U) (m : BatchNorm2d T)
  : BatchNorm2d U :=
  mkBatchNorm2d (num_features m) (f (bn_weight m)) (f (bn_bias m)).

Definition Linear_map {T U} (f : T -> U) (m : Linear T) : Linear U :=
  mkLinear (in_features m) (out_features m) (f (lin_weight m)) (f (lin_bias m)).

Definition BlockParams_map {T U} (f : T -> U) (w : BlockParams T)
  : BlockParams U :=
  mkBlockParams (f (init_conv_weight w)) (f (init_conv_bias w))
                (f (init_bn_weight w)) (f (init_bn_bias w)).

Definition Block_map {T U} (f : T -> U) (m : Block.t T) : Block.t U :=
  Block.mk (Block.c_in m) (Block.c_out m) (Block.fs m) (Block.rl m)
           (Conv2d_map f (Block.conv m)) (BatchNorm2d_map f (Block.norm m)).

Definition ResBlock_map {T U} (f : T -> U) (m : ResBlock.t T) : ResBlock.t U :=
  ResBlock.mk (ResBlock.nc m) (ResBlock.fs m)
              (Block_map f (ResBlock.a m)) (Block_map f (ResBlock.b m)).

Definition AltBlock_map {T U} (f : T -> U) (m : AltBlock.t T) : AltBlock.t U :=
  AltBlock.mk (AltBlock.nc m) (AltBlock.fs1 m) (AltBlock.fs2 m)
              (Block_map f (AltBlock.a m)) (Block_map f (AltBlock.b m))
              (Block_map f (AltBlock.c m)).

Definition Layer_map {T U} (f : T -> U) (m : Layer T) : Layer U :=
  match m with
  | LBlock m => LBlock (Block_map f m)
  | LResBlock m => LResBlock (ResBlock_map f m)
  | LAltBlock m => LAltBlock (AltBlock_map f m)
  | LAdaptiveAvgPool2d n => LAdaptiveAvgPool2d n
  | LFlatten => LFlatten
  | LLinear m => LLinear (Linear_map f m)
  end.

(** ** The library on integer tensors

    A reference interpreter for running the blocks on small inputs: a tensor
    is a shape with its entries in row-major order. An entry is an integer
    the library computes exactly, or [None] for a value this interpreter does
    not compute. Convolution, activation and sum are computed entry by entry
    and are unknown where an operand is. Normalisation in training mode
    standardises with the statistics of the batch: its result is the shift of
    the channel where the scale of the channel is 0, whatever the input, and
    is not computed otherwise. *)

Record ZTensor : Type := ZT {
  zshape : Shape;
  zdata : list (option Z)
}.

(** The tensor of shape [s] with the integer entries [l]. *)
Definition mkZTensor (s : Shape) (l : list Z) : ZTensor :=
  ZT s (map Some l).

Definition zfull (v : Z) (s : Shape) : ZTensor :=
  ZT s (repeat (Some v) (numel s)).

(** Entries of a 4-dimensional tensor, produced in row-major order. *)
Definition tabulate4 {A : Type} (N C H W : nat)
  (f : nat -> nat -> nat -> nat -> A) : list A :=
  n ← seq 0 N; c ← seq 0 C; i ← seq 0 H; j ← seq 0 W; [f n c i j].

Definition get4 (C H W : nat) (d : list (option Z)) (n c i j : nat)
  : option Z :=
  nth (((n * C + c) * H + i) * W + j) d None.

(** Entry [(u, v)] of channel [c] of image [n] after zero padding by [p]. *)
Definition get_padded (C H W p : nat) (d : list (option Z)) (n c u v : nat)
  : option Z :=
  if (p <=? u) && (u <? H + p) && (p <=? v) && (v <? W + p)
  then get4 C H W d n c (u - p) (v - p)
  else Some 0%Z.

(** An operation on two integers, unknown where an operand is. *)
Definition lift2 (f : Z -> Z -> Z) (a b : option Z) : option Z :=
  match a, b with
  | Some x, Some y => Some (f x y)
  | _, _ => None
  end.

Definition zsum (l : list (option Z)) : option Z :=
  fold_right (lift2 Z.add) (Some 0%Z) l.

Definition z_conv2d (ci co k p : nat) (w b x : ZTensor) : option ZTensor :=
  match zshape x with
  | [N; C; H; W] =>
      if (C =? ci) && (k <=? H + 2 * p) && (k <=? W + 2 * p)
      then Some (ZT [N; co; conv_side H k p; conv_side W k p]
        (tabulate4 N co (conv_side H k p) (conv_side W k p)
           (fun n o i j =>
              lift2 Z.add (nth o (zdata b) None)
                (zsum (c ← seq 0 C; di ← seq 0 k; dj ← seq 0 k;
                       [lift2 Z.mul
                          (get4 C k k (zdata w) o c di dj)
                          (get_padded C H W p (zdata x) n c (i + di)
                                      (j + dj))])))))
      else None
  | _ => None
  end.

(** Training mode: the result of channel [c] is its shift where its scale is
    0 and is not computed otherwise. An entry missing from a parameter reads
    as 0. *)
Definition z_batch_norm (f : nat) (g b x : ZTensor) : option ZTensor :=
  match zshape x with
  | [N; C; H; W] =>
      if (C =? f) && negb (N * H * W =? 1)
      then Some (ZT [N; C; H; W]
        (tabulate4 N C H W
           (fun n c i j =>
              match nth c (zdata g) (Some 0%Z) with
              | Some 0%Z => nth c (zdata b) (Some 0%Z)
              | _ => None
              end)))
      else None
  | _ => None
  end.

Definition z_relu (x : ZTensor) : ZTensor :=
  ZT (zshape x) (map (option_map (Z.max 0)) (zdata x)).

(** Position, in a tensor whose shape is [srev] from its last dimension on,
    of the entry that broadcasts to the index [irev] (last component first):
    along a dimension of size 1 the index is 0. *)
Fixpoint ravel_rev (srev irev : list nat) : nat :=
  match srev, irev with
  | d :: srev', i :: irev' =>
      (if d =? 1 then 0 else i) + d * ravel_rev srev' irev'
  | _, _ => 0
  end.

(** Index, last component first, of the entry at position [k] of a tensor
    whose shape is [srev] from its last dimension on. *)
Fixpoint unravel_rev (srev : list nat) (k : nat) : list nat :=
  match srev with
  | [] => []
  | d :: srev' => k mod d :: unravel_rev srev' (k / d)
  end.

(** Entry of [x], broadcast to the shape [s], at position [k] of [s]. *)
Definition get_broadcast (s : Shape) (x : ZTensor) (k : nat) : option Z :=
  nth (ravel_rev (reverse (zshape x)) (unravel_rev (reverse s) k))
      (zdata x) None.

Definition z_add (x y : ZTensor) : option ZTensor :=
  match shape_add (zshape x) (zshape y) with
  | Some s =>
      Some (ZT s (map (fun k => lift2 Z.add (get_broadcast s x k)
                                      (get_broadcast s y k))
                      (seq 0 (numel s))))
  | None => None
  end.

#[export] Instance ZLib : TensorOps ZTensor := {|
  tshape := zshape;
  zeros := zfull 0;
  conv2d := z_conv2d;
  batch_norm := z_batch_norm;
  relu := z_relu;
  tadd := z_add
|}.

(** *** Concrete units run on [ZLib] *)

(** Parameters of a one-channel unit with a [k]-wide kernel: convolution
    weight and bias filled with [w] and [cb], scale [g] and shift [b]. *)
Definition unit_params (k : nat) (w cb g b : Z) : BlockParams ZTensor :=
  mkBlockParams (zfull w [1; 1; k; k]) (zfull cb [1])
                (zfull g [1]) (zfull b [1]).

(** A residual unit whose two normalisations have scale 0 and shifts [1]
    (unit [a]) and [-1] (unit [b]). *)
Definition res_example : ResBlock.t ZTensor :=
  ResBlock.init 1 3 (unit_params 3 1 0 0 1) (unit_params 3 1 0 0 (-1)).

(** The same residual unit with every parameter set to zero. *)
Definition res_zeroed : ResBlock.t ZTensor :=
  ResBlock.init 1 3 (unit_params 3 0 0 0 0) (unit_params 3 0 0 0 0).

Definition alt_example : AltBlock.t ZTensor :=
  AltBlock.init 1 3 5
    (unit_params 3 1 0 0 1) (unit_params 3 1 0 0 (-1)) (unit_params 5 1 0 0 0).

(** A branching unit with non-trivial scales. *)
Definition alt_generic : AltBlock.t ZTensor :=
  AltBlock.init 1 3 5
    (unit_params 3 1 0 1 0) (unit_params 3 1 1 2 (-3))
    (unit_params 5 (-1) 2 1 1).

(** The readings of the two composite units in which the activation-free
    unit [b] is applied second: [self.b(self.a(x))]. *)
Definition ResBlock_forward_b_second {T} `{TensorOps T}
  (self : ResBlock.t T) (x : T) : option T :=
  y ← Block.forward (ResBlock.a self) x ≫= Block.forward (ResBlock.b self);
  relu <$> tadd x y.

Definition AltBlock_forward_b_second {T} `{TensorOps T}
  (self : AltBlock.t T) (x : T) : option T :=
  y ← Block.forward (AltBlock.a self) x ≫= Block.forward (AltBlock.b self);
  z ← AltBlock.path_b self x;
  relu <$> tadd y z.

(** ** Data loading *)

Definition bs : nat := 128.

Record DataLoader (A : Type) : Type := mkDataLoader {
  dataset : list A;
  batch_size : nat;
  shuffle : bool
}.

Arguments mkDataLoader {A}.
Arguments dataset {A}.
Arguments batch_size {A}.
Arguments shuffle {A}.

(** Consecutive chunks of [n] elements; the last one may be shorter
    ([drop_last] is off). *)
Fixpoint chunks_fuel {A} (fuel n : nat) (l : list A) : list (list A) :=
  match fuel with
  | 0 => []
  | S fuel' =>
      match l with
      | [] => []
      | _ => take n l :: chunks_fuel fuel' n (drop n l)
      end
  end.

Definition chunks {A} (n : nat) (l : list A) : list (list A) :=
  chunks_fuel (length l) n l.

(** [len(loader)]: the number of batches, rounded up. *)
Definition DataLoader_len {A} (dl : DataLoader A) : nat :=
  (length (dataset dl) + batch_size dl - 1) / batch_size dl.

(** The default collate function: the images and the labels of a chunk. *)
Definition collate {I} (c : list (I * nat)) : list I * list nat :=
  (map fst c, map snd c).

(** One iteration over a loader. [perm] is the order the sampler draws when
    [shuffle] is on. *)
Definition DataLoader_iter {I} (perm : list (I * nat) -> list (I * nat))
  (dl : DataLoader (I * nat)) : list (list I * list nat) :=
  map collate
    (chunks (batch_size dl)
       (if shuffle dl then perm (dataset dl) else dataset dl)).

(** ** Prediction: index of the first maximal score *)

Fixpoint max_index_from (best : Q) (bi i : nat) (l : list Q) : nat :=
  match l with
  | [] => bi
  | x :: l' =>
      if Qle_bool x best
      then max_index_from best bi (S i) l'
      else max_index_from x i (S i) l'
  end.

(** [row.max(-1)] gives the index of the first maximal value, and raises on
    an empty row. *)
Definition max_index (l : list Q) : option nat :=
  match l with
  | [] => None
  | x :: l' => Some (max_index_from x 0 1 l')
  end.

(** Number of positions where prediction and label agree. *)
Definition correct (preds labels : list nat) : nat :=
  length (List.filter (fun pl => fst pl =? snd pl) (combine preds labels)).

(** [(pred == lab).sum().item()] for two 1-dimensional tensors: compared
    entry by entry when the lengths agree; a tensor of length 1 is broadcast
    against the other; any other pair of lengths raises. *)
Definition eq_count (pred lab : list nat) : option nat :=
  if length pred =? length lab then Some (correct pred lab)
  else match pred, lab with
       | [p], _ => Some (correct (repeat p (length lab)) lab)
       | _, [l] => Some (correct pred (repeat l (length pred)))
       | _, _ => None
       end.

(** [p] is the index of the first maximal entry of [r]. *)
Definition is_argmax (r : list Q) (p : nat) : Prop :=
  exists v, r !! p = Some v /\
    (forall k u, r !! k = Some u -> (u <= v)%Q) /\
    (forall k u, k < p -> r !! k = Some u -> (u < v)%Q).

(** ** The training environment

    What [train_loop] receives and the globals it reads. [St] is the state
    shared by the model and the optimizer (parameters, gradients, running
    statistics, moments, modes); [Out] and [Loss] are the tensors returned by
    the model and by the criterion. Values read with [.item()] are rationals
    and arithmetic on them is exact. *)
Class TrainEnv : Type := {
  Img : Type;
  St : Type;
  Out : Type;
  Loss : Type;
  model_train : St -> St;
  model_eval : St -> St;
  set_grad_enabled : bool -> St -> St;
  zero_grad : St -> St;
  model_call : St -> list Img -> Out * St;
  criterion : Out -> list nat -> Loss;
  backward : Loss -> St -> St;
  step : St -> St;
  item : Loss -> Q;
  rows : Out -> list (list Q);
  softmax : list Q -> list Q;
  trainset : list (Img * nat);
  testset : list (Img * nat);
  sampler : nat -> list (Img * nat) -> list (Img * nat)
}.

(** What is assumed of the collaborators where a property needs it. *)
Class ModelOK (E : TrainEnv) : Prop := {
  rows_per_image : forall s imgs,
    length (rows (fst (model_call s imgs))) = length imgs;
  rows_nonempty : forall s imgs r,
    r ∈ rows (fst (model_call s imgs)) -> softmax r <> []
}.

Class SamplerOK (E : TrainEnv) : Prop :=
  sampler_perm : forall k l, sampler k l ≡ₚ l.

Class LossNonneg (E : TrainEnv) : Prop :=
  loss_nonneg : forall out lab, (0 <= item (criterion out lab))%Q.

Section TrainLoop.
Context {E : TrainEnv}.

Definition Batch : Type := list Img * list nat.

Definition trainloader : DataLoader (Img * nat) :=
  mkDataLoader trainset bs true.

Definition testloader : DataLoader (Img * nat) :=
  mkDataLoader testset bs false.

(** Calls on the collaborators, in the order they are made. *)
Inductive Event : Type :=
  | EModelTrain
  | EModelEval
  | ENoGrad (enter : bool)
  | EZeroGrad
  | EModelCall (img : list Img)
  | ECriterion (lab : list nat)
  | EBackward
  | EStep.

Record World : Type := mkWorld {
  st : St;
  log : list Event
}.

(** Computations that update the world and may raise. *)
Definition M (A : Type) : Type := World -> option (A * World).

Definition ret {A} (a : A) : M A := fun w => Some (a, w).

Definition bind {A B} (m : M A) (k : A -> M B) : M B :=
  fun w => match m w with
           | Some (a, w') => k a w'
           | None => None
           end.

Definition raise {A} : M A := fun _ => None.

Definition of_option {A} (o : option A) : M A :=
  fun w => match o with Some a => Some (a, w) | None => None end.

(** A call that updates the state. *)
Definition call (e : Event) (f : St -> St) : M unit :=
  fun w => Some (tt, mkWorld (f (st w)) (log w ++ [e])).

(** A call that updates the state and returns a value. *)
Definition call_ret {A} (e : Event) (f : St -> A * St) : M A :=
  fun w => let '(a, s) := f (st w) in Some (a, mkWorld s (log w ++ [e])).

Fixpoint for_each {A B} (body : A -> B -> M A) (acc : A) (l : list B)
  : M A :=
  match l with
  | [] => ret acc
  | x :: l' => bind (body acc x) (fun acc' => for_each body acc' l')
  end.

(** Python's [x / n] for a count [n]. *)
Definition truediv (x : Q) (n : nat) : M Q :=
  if n =? 0 then raise else ret (x / inject_Z (Z.of_nat n))%Q.

End TrainLoop.

Notation "'let*' x ':=' m 'in' k" := (bind m (fun x => k))
  (at level 10, x name, m at level 100, k at level 200,
   format "'[v' 'let*'  x  ':='  m  'in' '/' k ']'").

(** One row of [metrics]: [[train_loss, valid_loss, accuracy]]. *)
Record Metrics : Type := mkMetrics {
  train_loss : Q;
  valid_loss : Q;
  accuracy : Q
}.

Section TrainLoopBody.
Context {E : TrainEnv}.

(** Body of [for img, lab in trainloader]. *)
Definition train_batch (current : Q) (b : Batch) : M Q :=
  let* _ := call EZeroGrad zero_grad in
  let* out := call_ret (EModelCall (fst b)) (fun s => model_call s (fst b)) in
  let* loss := call_ret (ECriterion (snd b))
                 (fun s => (criterion out (snd b), s)) in
  let* _ := call EBackward (backward loss) in
  let* _ := call EStep step in
  ret (current + item loss)%Q.

(** From [current = 0] to [train_loss = current / len(trainloader)] in
    epoch [e]. *)
Definition train_phase (e : nat) : M Q :=
  let* _ := call EModelTrain model_train in
  let* current := for_each train_batch 0%Q
                    (DataLoader_iter (sampler e) trainloader) in
  truediv current (DataLoader_len trainloader).

(** [_, pred = nn.Softmax(-1)(out).max(-1)] *)
Definition predictions (out : Out) : option (list nat) :=
  mapM (fun r => max_index (softmax r)) (rows out).

(** Body of [for img, lab in testloader]. *)
Definition eval_batch (acc : Q * nat) (b : Batch) : M (Q * nat) :=
  let* out := call_ret (EModelCall (fst b)) (fun s => model_call s (fst b)) in
  let* loss := call_ret (ECriterion (snd b))
                 (fun s => (criterion out (snd b), s)) in
  let* pred := of_option (predictions out) in
  let* n := of_option (eq_count pred (snd b)) in
  ret ((fst acc + item loss)%Q, snd acc + n).

(** The block under [with torch.no_grad()]; returns
    [(valid_loss, accuracy)]. The test loader does not shuffle, so the order
    passed to its iteration is not used. *)
Definition eval_phase : M (Q * Q) :=
  let* _ := call (ENoGrad true) (set_grad_enabled false) in
  let* _ := call EModelEval model_eval in
  let* r := for_each eval_batch (0%Q, 0)
              (DataLoader_iter (sampler 0) testloader) in
  let* valid_loss := truediv (fst r) (DataLoader_len testloader) in
  let* accuracy := truediv (inject_Z (100 * Z.of_nat (snd r)))
                     (length testset) in
  let* _ := call (ENoGrad false) (set_grad_enabled true) in
  ret (valid_loss, accuracy).

Definition epoch (e : nat) : M Metrics :=
  let* train_loss := train_phase e in
  let* r := eval_phase in
  ret (mkMetrics train_loss (fst r) (snd r)).

(** [for _ in range(epochs)], over the epochs still to run. *)
Fixpoint epochs_loop (es : list nat) (metrics : list Metrics)
  : M (list Metrics) :=
  match es with
  | [] => ret metrics
  | e :: es' =>
      let* m := epoch e in
      epochs_loop es' (metrics ++ [m])
  end.

Definition train_loop (epochs : nat) : M (list Metrics) :=
  epochs_loop (seq 0 epochs) [].

(** *** What one pass over batches computes *)

(** State after the body of the training loop on one batch, and its loss. *)
Definition train_step (s : St) (b : Batch) : Q * St :=
  let s1 := zero_grad s in
  let '(out, s2) := model_call s1 (fst b) in
  let loss := criterion out (snd b) in
  (item loss, step (backward loss s2)).

Fixpoint batch_losses (s : St) (l : list Batch) : list Q :=
  match l with
  | [] => []
  | b :: l' =>
      let '(q, s') := train_step s b in q :: batch_losses s' l'
  end.

(** Score rows the model returns over a pass on [l], batch after batch. *)
Fixpoint eval_rows (s : St) (l : list Batch) : list (list Q) :=
  match l with
  | [] => []
  | b :: l' =>
      let '(out, s') := model_call s (fst b) in
      rows out ++ eval_rows s' l'
  end.

Definition batch_events (b : Batch) : list Event :=
  [EZeroGrad; EModelCall (fst b); ECriterion (snd b); EBackward; EStep].

(** State left by the body of the training loop run on the batches [l], in
    order: every batch clears the gradients, calls the model,
    back-propagates its loss and takes one optimizer step. *)
Definition train_state (s : St) (l : list Batch) : St :=
  fold_left (fun s b => snd (train_step s b)) l s.

(** State left by the body of the evaluation loop run on [l]: only the model
    is called. *)
Definition eval_state (s : St) (l : list Batch) : St :=
  fold_left (fun s b => snd (model_call s (fst b))) l s.

(** State left by epoch [e] started in state [s]: the training phase, then
    the evaluation phase with gradients disabled around it. *)
Definition epoch_state (e : nat) (s : St) : St :=
  set_grad_enabled true
    (eval_state
       (model_eval
          (set_grad_enabled false
             (train_state (model_train s)
                (DataLoader_iter (sampler e) trainloader))))
       (DataLoader_iter (sampler 0) testloader)).

(** State in which epoch [n] starts: epochs [0 .. n-1] have run. *)
Definition state_after (n : nat) (s : St) : St :=
  fold_left (fun s e => epoch_state e s) (seq 0 n) s.

End TrainLoopBody.

(** ** A small training environment

    One integer weight [w]; an image is an integer [x], scored [w * x] for
    class 0 and 0 for class 1. The loss of a batch is its number of rows, a
    step adds 1 to the weight, and scores are left as they are by the
    normalisation. The sampler reverses the data set. *)

Definition toy_model_call (w : Z) (imgs : list Z) : list (list Q) * Z :=
  (map (fun x => [inject_Z (w * x); 0%Q]) imgs, w).

Definition toy_data (n : nat) : list (Z * nat) :=
  map (fun i => ((Z.of_nat i - 100)%Z, i mod 2)) (seq 0 n).

Definition ToyEnv : TrainEnv := {|
  Img := Z;
  St := Z;
  Out := list (list Q);
  Loss := Q;
  model_train := fun s => s;
  model_eval := fun s => s;
  set_grad_enabled := fun _ s => s;
  zero_grad := fun s => s;
  model_call := toy_model_call;
  criterion := fun out _ => inject_Z (Z.of_nat (length out));
  backward := fun _ s => s;
  step := fun s => (s + 1)%Z;
  item := fun l => l;
  rows := fun out => out;
  softmax := fun r => r;
  trainset := toy_data 300;
  testset := toy_data 200;
  sampler := fun _ l => rev l
|}.

Definition toy_world : @World ToyEnv := mkWorld (E := ToyEnv) 1%Z [].

(** ** More of the training loop: evaluation losses and kinds of calls *)

Section TrainLoopMore.
Context {E : TrainEnv}.

(** Losses the criterion returns over an evaluation pass on [l], batch after
    batch. *)
Fixpoint eval_losses (s : St) (l : list Batch) : list Q :=
  match l with
  | [] => []
  | b :: l' =>
      let '(out, s') := model_call s (fst b) in
      item (criterion out (snd b)) :: eval_losses s' l'
  end.

(** Calls made by the body of the evaluation loop. *)
Definition eval_events (b : Batch) : list Event :=
  [EModelCall (fst b); ECriterion (snd b)].

(** Calls that touch the gradients or the parameters. *)
Definition is_update (e : Event) : bool :=
  match e with
  | EZeroGrad | EBackward | EStep => true
  | _ => false
  end.

Definition is_step (e : Event) : bool :=
  match e with
  | EStep => true
  | _ => false
  end.

Definition is_model_call (e : Event) : bool :=
  match e with
  | EModelCall _ => true
  | _ => false
  end.

(** Number of optimizer steps, and of model calls, recorded in a log. *)
Definition steps (lg : list Event) : nat := length (List.filter is_step lg).

Definition model_calls (lg : list Event) : nat :=
  length (List.filter is_model_call lg).

End TrainLoopMore.

(** * Properties *)

(** ** The blocks, over any tensor library *)

Section BlockFacts.
Context {T : Type} `{TensorOps T}.

Lemma Block_forward_active (m : Block.t T) (x : T) :
  truthy (Block.rl m) = true ->
  Block.forward m x = relu <$> Block.norm_conv m x.
Proof. intros Hrl. unfold Block.forward. now rewrite Hrl. Qed.

Lemma Block_forward_inactive (m : Block.t T) (x : T) :
  truthy (Block.rl m) = false ->
  Block.forward m x = Block.norm_conv m x.
Proof. intros Hrl. unfold Block.forward. now rewrite Hrl. Qed.

(** A unit whose normalisation has zero scale and shift returns the zero
    tensor of the shape its convolution produces. *)
Lemma Block_zeroed_forward `{!ZeroLaws T} (m : Block.t T) (x y : T) :
  Block.zeroed m ->
  Block.forward m x = Some y ->
  y = zeros (tshape y).
Proof.
  intros (_ & _ & Hg & Hb) Hfw.
  assert (Hnc : forall u, Block.norm_conv m x = Some u -> u = zeros (tshape u)).
  { unfold Block.norm_conv, BatchNorm2d_call. intros u Hu.
    destruct (Conv2d_call (Block.conv m) x) as [c|] eqn:Hc; [|discriminate].
    simpl in Hu.
    pose proof (batch_norm_zero_affine _ _ _ _ _ Hg Hb Hu) as ->.
    now rewrite tshape_zeros. }
  unfold Block.forward in Hfw.
  destruct (truthy (Block.rl m)).
  - destruct (Block.norm_conv m x) as [u|] eqn:Hu; [|discriminate].
    simpl in Hfw. injection Hfw as <-.
    rewrite (Hnc u eq_refl), relu_zeros. now rewrite tshape_zeros.
  - now apply Hnc.
Qed.

End BlockFacts.

(** C3. A [Block] built from (input channels, output channels, kernel size,
    padding, activation flag) returns relu(norm(conv(x))) when the flag is
    set and norm(conv(x)), unchanged, when it is not. *)
Theorem Block_forward_spec {T : Type} `{TensorOps T}
    (c_in c_out fs p : nat) (rl : PyFlag) (w : BlockParams T) (x : T) :
  let conv := conv2d c_in c_out fs p (init_conv_weight w) (init_conv_bias w) in
  let norm := batch_norm c_out (init_bn_weight w) (init_bn_bias w) in
  Block.forward (Block.init c_in c_out fs p rl w) x =
    if truthy rl
    then relu <$> (conv x ≫= norm)
    else conv x ≫= norm.
Proof. reflexivity. Qed.

(** The order of the two units in [ResBlock.forward], as written:
    [self.a(self.b(x))] runs the unit built with [rl=None] first and the unit
    with its activation on second, so the sum [x + y] is taken after an
    activation. Both units are built with padding 1. *)
Lemma ResBlock_forward_order {T : Type} `{TensorOps T}
    (nc fs : nat) (wa wb : BlockParams T) (x : T) :
  let self := ResBlock.init nc fs wa wb in
  ResBlock.forward self x =
    (y ← Block.forward (ResBlock.b self) x ≫= Block.forward (ResBlock.a self);
     relu <$> tadd x y) /\
  Block.forward (ResBlock.b self) x = Block.norm_conv (ResBlock.b self) x /\
  (forall u, Block.forward (ResBlock.a self) u =
             relu <$> Block.norm_conv (ResBlock.a self) u) /\
  Block.conv (ResBlock.a self) =
    mkConv2d nc nc fs 1 (init_conv_weight wa) (init_conv_bias wa) /\
  Block.conv (ResBlock.b self) =
    mkConv2d nc nc fs 1 (init_conv_weight wb) (init_conv_bias wb).
Proof. repeat split. Qed.

(** C1. The claim has the activation-free unit as the second stage of a
    [ResBlock], so that the skip sum is taken before any activation of the
    pair's output. [forward] runs the pair in the other order. On a 2x1x2x2
    zero input the unit [res_example] (scales 0, shifts 1 for [a] and -1 for
    [b]) returns ones, where the composition of the claim returns zeros: the
    unit applied second has its activation on. *)
Lemma ResBlock_second_stage_divergence :
  ResBlock.forward res_example (zfull 0 [2; 1; 2; 2])
    <> ResBlock_forward_b_second res_example (zfull 0 [2; 1; 2; 2]) /\
  ResBlock.forward res_example (zfull 0 [2; 1; 2; 2])
    = Some (zfull 1 [2; 1; 2; 2]) /\
  ResBlock_forward_b_second res_example (zfull 0 [2; 1; 2; 2])
    = Some (zfull 0 [2; 1; 2; 2]) /\
  truthy (Block.rl (ResBlock.a res_example)) = true.
Proof. repeat split. vm_compute. discriminate. Qed.

(** The order of the units in [AltBlock.forward], as written: path A is
    [self.a(self.b(x))], the unit built with [rl=None] first and the unit
    with its activation on second; path B is the single activation-free unit
    [c]. Units [a] and [b] have kernel size [fs1], unit [c] has [fs2]. *)
Lemma AltBlock_forward_order {T : Type} `{TensorOps T}
    (nc fs1 fs2 : nat) (wa wb wc : BlockParams T) (x : T) :
  let self := AltBlock.init nc fs1 fs2 wa wb wc in
  AltBlock.forward self x =
    (y ← Block.forward (AltBlock.b self) x ≫= Block.forward (AltBlock.a self);
     z ← Block.forward (AltBlock.c self) x;
     relu <$> tadd y z) /\
  Block.forward (AltBlock.b self) x = Block.norm_conv (AltBlock.b self) x /\
  (forall u, Block.forward (AltBlock.a self) u =
             relu <$> Block.norm_conv (AltBlock.a self) u) /\
  Block.forward (AltBlock.c self) x = Block.norm_conv (AltBlock.c self) x /\
  kernel_size (Block.conv (AltBlock.a self)) = fs1 /\
  kernel_size (Block.conv (AltBlock.b self)) = fs1 /\
  kernel_size (Block.conv (AltBlock.c self)) = fs2.
Proof. repeat split. Qed.

(** C2. The claim has path A of an [AltBlock] end with the activation-free
    unit. [forward] runs the two units of path A in the other order. On a
    2x1x5x5 zero input the unit [alt_example] (scales 0, shifts 1 for [a],
    -1 for [b] and 0 for [c]) returns ones of shape 2x1x1x1, where the
    composition of the claim returns zeros: path A ends with an
    activation. *)
Lemma AltBlock_second_stage_divergence :
  AltBlock.forward alt_example (zfull 0 [2; 1; 5; 5])
    <> AltBlock_forward_b_second alt_example (zfull 0 [2; 1; 5; 5]) /\
  AltBlock.forward alt_example (zfull 0 [2; 1; 5; 5])
    = Some (zfull 1 [2; 1; 1; 1]) /\
  AltBlock_forward_b_second alt_example (zfull 0 [2; 1; 5; 5])
    = Some (zfull 0 [2; 1; 1; 1]) /\
  truthy (Block.rl (AltBlock.a alt_example)) = true.
Proof. repeat split. vm_compute. discriminate. Qed.

(** C8. Computing path B before path A, and summing in that order, gives
    the same output: the sum of the two path outputs is commutative. *)
Theorem AltBlock_paths_commute {T : Type} `{TensorOps T} `{!AddComm T}
    (self : AltBlock.t T) (x : T) :
  AltBlock.forward_swapped self x = AltBlock.forward self x.
Proof.
  unfold AltBlock.forward_swapped, AltBlock.forward.
  destruct (AltBlock.path_a self x) as [y|], (AltBlock.path_b self x) as [z|];
    simpl; try reflexivity.
  now rewrite (tadd_comm z y).
Qed.

(** C9. A [ResBlock] whose two units have all their learnable parameters
    zero returns relu(x) on every input whose shape the branch preserves. *)
Theorem ResBlock_zeroed_identity {T : Type} `{TensorOps T} `{!ZeroLaws T}
    (self : ResBlock.t T) (x : T) :
  Block.zeroed (ResBlock.a self) ->
  Block.zeroed (ResBlock.b self) ->
  (exists y, ResBlock.branch self x = Some y /\ tshape y = tshape x) ->
  tadd x (zeros (tshape x)) = Some x ->
  ResBlock.forward self x = Some (relu x).
Proof.
  intros Ha Hb (y & Hy & Hshape) Hadd.
  unfold ResBlock.forward. rewrite Hy. simpl.
  unfold ResBlock.branch in Hy.
  destruct (Block.forward (ResBlock.b self) x) as [u|] eqn:Hu; [|discriminate].
  simpl in Hy.
  rewrite (Block_zeroed_forward _ _ _ Ha Hy), Hshape, Hadd.
  reflexivity.
Qed.

(** ** The integer tensor library satisfies the laws *)

Lemma bind_repeat {A B : Type} (v : B) (m : nat) (l : list A) :
  (x ← l; repeat v m) = repeat v (length l * m).
Proof.
  induction l as [|a l IH]; [reflexivity|].
  rewrite bind_cons, IH. simpl. now rewrite repeat_app.
Qed.

Lemma tabulate4_const {A : Type} (N C H W : nat) (v : A) :
  tabulate4 N C H W (fun _ _ _ _ => v) = repeat v (numel [N; C; H; W]).
Proof.
  unfold tabulate4, numel. simpl fold_right.
  change (fun _ : nat => [v]) with (fun _ : nat => repeat v 1).
  now rewrite !bind_repeat, !length_seq.
Qed.

Lemma bind_ext_all {A B : Type} (f g : A -> list B) (l : list A) :
  (forall x, f x = g x) -> l ≫= f = l ≫= g.
Proof.
  intros Hfg. induction l as [|a l IH]; [reflexivity|].
  now rewrite !bind_cons, IH, Hfg.
Qed.

Lemma tabulate4_ext {A : Type} (N C H W : nat)
    (f g : nat -> nat -> nat -> nat -> A) :
  (forall n c i j, f n c i j = g n c i j) ->
  tabulate4 N C H W f = tabulate4 N C H W g.
Proof.
  intros Hfg. unfold tabulate4.
  repeat (apply bind_ext_all; intros ?).
  now rewrite Hfg.
Qed.

Lemma nth_zdata_zfull (v : Z) (s : Shape) (k : nat) :
  nth k (zdata (zfull v s)) (Some v) = Some v.
Proof. simpl. apply nth_repeat. Qed.

Lemma lift2_add_comm (a b : option Z) : lift2 Z.add a b = lift2 Z.add b a.
Proof. destruct a, b; simpl; try reflexivity. now rewrite Z.add_comm. Qed.

Lemma broadcast_dim_comm (a b : nat) : broadcast_dim a b = broadcast_dim b a.
Proof.
  unfold broadcast_dim.
  destruct (Nat.eqb_spec a b) as [->|Hab].
  - now rewrite Nat.eqb_refl.
  - destruct (Nat.eqb_spec b a) as [->|_]; [contradiction|].
    destruct (Nat.eqb_spec a 1) as [->|], (Nat.eqb_spec b 1) as [->|];
      try reflexivity; contradiction.
Qed.

Lemma broadcast_rev_comm (s1 s2 : list nat) :
  broadcast_rev s1 s2 = broadcast_rev s2 s1.
Proof.
  revert s2. induction s1 as [|a s1 IH]; intros [|b s2]; simpl;
    try reflexivity.
  now rewrite IH, broadcast_dim_comm.
Qed.

Lemma shape_add_comm (s1 s2 : Shape) : shape_add s1 s2 = shape_add s2 s1.
Proof. unfold shape_add. now rewrite broadcast_rev_comm. Qed.

Lemma z_add_comm (x y : ZTensor) : z_add x y = z_add y x.
Proof.
  unfold z_add. rewrite (shape_add_comm (zshape x)).
  destruct (shape_add (zshape y) (zshape x)) as [s|]; [|reflexivity].
  do 2 f_equal. apply map_ext. intros k. apply lift2_add_comm.
Qed.

#[export] Instance ZLib_add_comm : AddComm ZTensor := z_add_comm.

#[export] Instance ZLib_zero_laws : ZeroLaws ZTensor.
Proof.
  split.
  - reflexivity.
  - intros s. unfold relu, zeros; simpl. unfold z_relu, zfull; simpl.
    f_equal. induction (numel s) as [|n IH]; simpl; [reflexivity|].
    now rewrite IH.
  - intros c g b x y Hg Hb. simpl. unfold z_batch_norm.
    destruct (zshape x) as [|N [|C [|Hh [|W [|]]]]] eqn:Hs; try discriminate.
    destruct ((C =? c) && negb (N * Hh * W =? 1)); [|discriminate].
    intros [= <-]. unfold zfull. f_equal.
    rewrite <- tabulate4_const. apply tabulate4_ext. intros n ch i j.
    rewrite Hg, Hb. simpl zeros.
    now rewrite !nth_zdata_zfull.
Qed.

(** C8 at the unit [alt_generic] and a 1x1x5x6 input. *)
Lemma AltBlock_paths_commute_witness :
  AltBlock.forward_swapped alt_generic
    (mkZTensor [1; 1; 5; 6] (map Z.of_nat (seq 0 30)))
  = AltBlock.forward alt_generic
    (mkZTensor [1; 1; 5; 6] (map Z.of_nat (seq 0 30))).
Proof. exact (AltBlock_paths_commute (T := ZTensor) alt_generic _). Defined.

(** C9 at the unit [res_zeroed] and a 1x1x2x2 input with entries
    3, -4, 0, 7. *)
Lemma ResBlock_zeroed_identity_witness :
  ResBlock.forward res_zeroed (mkZTensor [1; 1; 2; 2] [3; -4; 0; 7]%Z)
  = Some (mkZTensor [1; 1; 2; 2] [3; 0; 0; 7]%Z).
Proof.
  change (ResBlock.forward res_zeroed (mkZTensor [1; 1; 2; 2] [3; -4; 0; 7]%Z)
          = Some (relu (mkZTensor [1; 1; 2; 2] [3; -4; 0; 7]%Z))).
  apply (ResBlock_zeroed_identity (T := ZTensor) res_zeroed
           (mkZTensor [1; 1; 2; 2] [3; -4; 0; 7]%Z)).
  - repeat split.
  - repeat split.
  - exists (zfull 0 [1; 1; 2; 2]). split; reflexivity.
  - reflexivity.
Defined.

(** ** Shapes through the topologies *)

Lemma broadcast_dim_same (a : nat) : broadcast_dim a a = Some a.
Proof. unfold broadcast_dim. now rewrite Nat.eqb_refl. Qed.

Lemma broadcast_rev_same (s : list nat) : broadcast_rev s s = Some s.
Proof.
  induction s as [|a s IH]; [reflexivity|].
  cbn [broadcast_rev]. rewrite broadcast_dim_same, IH. reflexivity.
Qed.

Lemma shape_add_same (s : Shape) : shape_add s s = Some s.
Proof.
  unfold shape_add. rewrite broadcast_rev_same.
  cbn [fmap option_fmap option_map]. now rewrite reverse_involutive.
Qed.

(** A map with a side of at least 2 never holds a single value. *)
Lemma many_values (n a b : nat) : 2 <= a \/ 2 <= b -> n * a * b <> 1.
Proof.
  intros Hab Heq.
  apply Nat.eq_mul_1 in Heq as [Hna ->].
  apply Nat.eq_mul_1 in Hna as [_ ->]. lia.
Qed.

Lemma values_ne (n a b a' b' : nat) :
  a = a' -> b = b' -> n * a' * b' <> 1 -> n * a * b <> 1.
Proof. now intros -> ->. Qed.

(** The number of values per channel of a map is not 1: a side is at least 2,
    or the sides are those of a map known to hold more than one value. *)
Ltac values_tac :=
  first
    [ apply many_values; unfold conv_side; lia
    | match goal with
      | Hv : _ * _ * _ <> 1 |- _ =>
          refine (values_ne _ _ _ _ _ _ _ Hv); unfold conv_side; lia
      end ].

Lemma shape_conv2d_ok (i o k p n h w : nat) :
  k <= h + 2 * p -> k <= w + 2 * p ->
  shape_conv2d i o k p [n; i; h; w]
  = Some [n; o; conv_side h k p; conv_side w k p].
Proof.
  intros Hh Hw. unfold shape_conv2d.
  rewrite Nat.eqb_refl.
  destruct (Nat.leb_spec k (h + 2 * p)); [|lia].
  destruct (Nat.leb_spec k (w + 2 * p)); [|lia].
  reflexivity.
Qed.

Lemma shape_conv2d_Some (i o k p : nat) (s s' : Shape) :
  shape_conv2d i o k p s = Some s' ->
  exists n h w, s = [n; i; h; w] /\ k <= h + 2 * p /\ k <= w + 2 * p /\
                s' = [n; o; conv_side h k p; conv_side w k p].
Proof.
  unfold shape_conv2d.
  destruct s as [|n [|c [|h [|w [|]]]]]; try discriminate.
  destruct (Nat.eqb_spec c i) as [->|]; [|discriminate].
  destruct (Nat.leb_spec k (h + 2 * p)); [|discriminate].
  destruct (Nat.leb_spec k (w + 2 * p)); [|discriminate].
  intros [= <-]. eauto 10.
Qed.

Lemma shape_conv2d_channels (i o k p n c h w : nat) :
  c <> i -> shape_conv2d i o k p [n; c; h; w] = None.
Proof.
  intros Hc. unfold shape_conv2d.
  now destruct (Nat.eqb_spec c i).
Qed.

Lemma shape_conv2d_small (i o k p n c h w : nat) :
  h + 2 * p < k \/ w + 2 * p < k ->
  shape_conv2d i o k p [n; c; h; w] = None.
Proof.
  intros Hk. unfold shape_conv2d.
  destruct (c =? i); [|reflexivity].
  destruct (Nat.leb_spec k (h + 2 * p)); [|reflexivity].
  destruct (Nat.leb_spec k (w + 2 * p)); [|reflexivity]. lia.
Qed.

(** Normalisation in training mode accepts the channels it was built for on
    a map with more than one value per channel, and raises on a map with a
    single one. *)
Lemma shape_batch_norm_ok (c n h w : nat) :
  n * h * w <> 1 ->
  shape_batch_norm c [n; c; h; w] = Some [n; c; h; w].
Proof.
  intros Hv. unfold shape_batch_norm. rewrite Nat.eqb_refl.
  now destruct (Nat.eqb_spec (n * h * w) 1).
Qed.

Lemma shape_batch_norm_single (f n c h w : nat) :
  n * h * w = 1 -> shape_batch_norm f [n; c; h; w] = None.
Proof.
  intros Hv. unfold shape_batch_norm. rewrite Hv.
  cbn [Nat.eqb negb]. now rewrite andb_false_r.
Qed.

Lemma shape_batch_norm_Some (f : nat) (s s' : Shape) :
  shape_batch_norm f s = Some s' ->
  s' = s /\ exists n h w, s = [n; f; h; w] /\ n * h * w <> 1.
Proof.
  unfold shape_batch_norm.
  destruct s as [|n [|c [|h [|w [|]]]]]; try discriminate.
  destruct (Nat.eqb_spec c f) as [->|]; [|discriminate].
  destruct (Nat.eqb_spec (n * h * w) 1); [discriminate|].
  intros [= <-]. eauto 10.
Qed.

(** On shapes a [Block] is its convolution followed by the check of its
    normalisation: the activation keeps the shape. *)
Lemma Block_on_shapes (i o k p : nat) (rl : PyFlag) (wt : BlockParams Shape)
    (s : Shape) :
  Block.forward (Block.init i o k p rl wt) s
  = shape_conv2d i o k p s ≫= shape_batch_norm o.
Proof.
  unfold Block.forward.
  change (Block.norm_conv (Block.init i o k p rl wt) s)
    with (shape_conv2d i o k p s ≫= shape_batch_norm o).
  destruct (truthy _); [|reflexivity].
  now destruct (shape_conv2d i o k p s ≫= shape_batch_norm o).
Qed.

Lemma Block_shape_forward (i o k p : nat) (rl : PyFlag)
    (wt : BlockParams Shape) (n h w : nat) :
  k <= h + 2 * p -> k <= w + 2 * p ->
  n * conv_side h k p * conv_side w k p <> 1 ->
  Block.forward (Block.init i o k p rl wt) [n; i; h; w]
  = Some [n; o; conv_side h k p; conv_side w k p].
Proof.
  intros Hh Hw Hv.
  rewrite Block_on_shapes, shape_conv2d_ok by assumption.
  cbn [mbind option_bind]. now apply shape_batch_norm_ok.
Qed.

Lemma Block_on_shapes_Some (i o k p : nat) (rl : PyFlag)
    (wt : BlockParams Shape) (s s' : Shape) :
  Block.forward (Block.init i o k p rl wt) s = Some s' ->
  exists n h w, s = [n; i; h; w] /\ k <= h + 2 * p /\ k <= w + 2 * p /\
                n * conv_side h k p * conv_side w k p <> 1 /\
                s' = [n; o; conv_side h k p; conv_side w k p].
Proof.
  rewrite Block_on_shapes. intros Hrun.
  apply bind_Some in Hrun as (u & Hu & Hn).
  apply shape_conv2d_Some in Hu as (n & h & w & -> & Hh & Hw & ->).
  apply shape_batch_norm_Some in Hn as (-> & n' & h' & w' & Heq & Hv).
  injection Heq as <- <- <-. eauto 10.
Qed.

(** A [Block] whose convolution leaves a single value per channel raises in
    its normalisation. *)
Lemma Block_on_shapes_single (i o k p : nat) (rl : PyFlag)
    (wt : BlockParams Shape) (n h w : nat) :
  n * conv_side h k p * conv_side w k p = 1 ->
  Block.forward (Block.init i o k p rl wt) [n; i; h; w] = None.
Proof.
  intros Hv. rewrite Block_on_shapes.
  destruct (shape_conv2d i o k p [n; i; h; w]) as [u|] eqn:Hu; [|reflexivity].
  apply shape_conv2d_Some in Hu as (n' & h' & w' & Heq & _ & _ & ->).
  injection Heq as <- <- <-.
  cbn [mbind option_bind]. now apply shape_batch_norm_single.
Qed.

(** On shapes an [AltBlock(nc, 3, 5)] maps sides [h], [w] of at least 5 to
    [h - 4], [w - 4] along both paths, when the shrunken map holds more than
    one value per channel. *)
Lemma AltBlock_3_5_on_shapes (nc : nat) (wa wb wc : BlockParams Shape)
    (n h w : nat) :
  5 <= h -> 5 <= w -> n * (h - 4) * (w - 4) <> 1 ->
  let self := AltBlock.init nc 3 5 wa wb wc in
  AltBlock.path_a self [n; nc; h; w] = Some [n; nc; h - 4; w - 4] /\
  AltBlock.path_b self [n; nc; h; w] = Some [n; nc; h - 4; w - 4] /\
  AltBlock.forward self [n; nc; h; w] = Some [n; nc; h - 4; w - 4].
Proof.
  intros Hh Hw Hv self.
  assert (Ha : AltBlock.path_a self [n; nc; h; w] = Some [n; nc; h - 4; w - 4]).
  { unfold AltBlock.path_a, self, AltBlock.init, AltBlock.a, AltBlock.b,
      Block.default_p.
    rewrite Block_shape_forward by first [lia | values_tac].
    cbn [mbind option_bind].
    rewrite Block_shape_forward
      by first [unfold conv_side; lia | values_tac].
    unfold conv_side. repeat f_equal; lia. }
  assert (Hb : AltBlock.path_b self [n; nc; h; w] = Some [n; nc; h - 4; w - 4]).
  { unfold AltBlock.path_b, self, AltBlock.init, AltBlock.c, Block.default_p.
    rewrite Block_shape_forward by first [lia | values_tac].
    unfold conv_side. repeat f_equal; lia. }
  repeat split; try assumption.
  unfold AltBlock.forward. rewrite Ha, Hb. simpl.
  now rewrite shape_add_same.
Qed.

(** With a single value per channel left after shrinking, both paths of an
    [AltBlock(nc, 3, 5)] raise in a normalisation. *)
Lemma AltBlock_3_5_on_shapes_single (nc : nat) (wa wb wc : BlockParams Shape)
    (n h w : nat) :
  5 <= h -> 5 <= w -> n * (h - 4) * (w - 4) = 1 ->
  let self := AltBlock.init nc 3 5 wa wb wc in
  AltBlock.path_a self [n; nc; h; w] = None /\
  AltBlock.path_b self [n; nc; h; w] = None /\
  AltBlock.forward self [n; nc; h; w] = None.
Proof.
  intros Hh Hw Hv self.
  assert (Ha : AltBlock.path_a self [n; nc; h; w] = None).
  { unfold AltBlock.path_a, self, AltBlock.init, AltBlock.a, AltBlock.b,
      Block.default_p.
    rewrite Block_shape_forward by first [lia | values_tac].
    cbn [mbind option_bind].
    apply Block_on_shapes_single.
    replace (conv_side (conv_side h 3 0) 3 0) with (h - 4)
      by (unfold conv_side; lia).
    replace (conv_side (conv_side w 3 0) 3 0) with (w - 4)
      by (unfold conv_side; lia).
    exact Hv. }
  assert (Hb : AltBlock.path_b self [n; nc; h; w] = None).
  { unfold AltBlock.path_b, self, AltBlock.init, AltBlock.c, Block.default_p.
    apply Block_on_shapes_single.
    replace (conv_side h 5 0) with (h - 4) by (unfold conv_side; lia).
    replace (conv_side w 5 0) with (w - 4) by (unfold conv_side; lia).
    exact Hv. }
  repeat split; try assumption.
  unfold AltBlock.forward. now rewrite Ha.
Qed.

(** ** The composite units on shapes *)

Lemma ResBlock_3_on_shapes (nc : nat) (wa wb : BlockParams Shape)
    (n h w : nat) :
  1 <= h -> 1 <= w -> n * h * w <> 1 ->
  ResBlock.forward (ResBlock.init nc 3 wa wb) [n; nc; h; w]
  = Some [n; nc; h; w].
Proof.
  intros Hh Hw Hv.
  unfold ResBlock.forward, ResBlock.branch, ResBlock.init, ResBlock.a,
    ResBlock.b.
  rewrite Block_shape_forward by first [lia | values_tac].
  cbn [mbind option_bind].
  rewrite Block_shape_forward by first [unfold conv_side; lia | values_tac].
  cbn [mbind option_bind tadd relu ShapeLib].
  replace (conv_side (conv_side h 3 1) 3 1) with h by (unfold conv_side; lia).
  replace (conv_side (conv_side w 3 1) 3 1) with w by (unfold conv_side; lia).
  now rewrite shape_add_same.
Qed.

Lemma ResBlock_3_on_shapes_Some (nc : nat) (wa wb : BlockParams Shape)
    (s s' : Shape) :
  ResBlock.forward (ResBlock.init nc 3 wa wb) s = Some s' ->
  exists n h w, s = [n; nc; h; w] /\ 1 <= h /\ 1 <= w /\ n * h * w <> 1 /\
                s' = s.
Proof.
  intros Hrun. pose proof Hrun as Hrun'.
  unfold ResBlock.forward, ResBlock.branch, ResBlock.init, ResBlock.a,
    ResBlock.b in Hrun.
  apply bind_Some in Hrun as (y & Hy & _).
  apply bind_Some in Hy as (u & Hu & _).
  apply Block_on_shapes_Some in Hu as (n & h & w & -> & Hh & Hw & Hv & _).
  assert (Hv' : n * h * w <> 1)
    by (refine (values_ne _ _ _ _ _ _ _ Hv); unfold conv_side; lia).
  rewrite ResBlock_3_on_shapes in Hrun' by first [lia | assumption].
  injection Hrun' as <-. exists n, h, w.
  split; [reflexivity|]. split; [lia|]. split; [lia|]. now split.
Qed.

(** A [ResBlock] of kernel size 3 on a single value per channel raises in
    its first normalisation. *)
Lemma ResBlock_3_on_shapes_single (nc : nat) (wa wb : BlockParams Shape)
    (n h w : nat) :
  n * h * w = 1 ->
  ResBlock.forward (ResBlock.init nc 3 wa wb) [n; nc; h; w] = None.
Proof.
  intros Hv.
  destruct (ResBlock.forward (ResBlock.init nc 3 wa wb) [n; nc; h; w])
    as [s'|] eqn:Hrun; [|reflexivity].
  apply ResBlock_3_on_shapes_Some in Hrun
    as (n' & h' & w' & Heq & _ & _ & Hv' & _).
  injection Heq as <- <- <-. contradiction.
Qed.

Lemma AltBlock_on_shapes (nc fs1 : nat) (wa wb wc : BlockParams Shape)
    (n h w : nat) :
  1 <= fs1 -> 2 * fs1 - 1 <= h -> 2 * fs1 - 1 <= w ->
  n * (h - 2 * (fs1 - 1)) * (w - 2 * (fs1 - 1)) <> 1 ->
  AltBlock.forward (AltBlock.init nc fs1 (2 * fs1 - 1) wa wb wc) [n; nc; h; w]
  = Some [n; nc; h - 2 * (fs1 - 1); w - 2 * (fs1 - 1)].
Proof.
  intros Hfs Hh Hw Hv.
  unfold AltBlock.forward, AltBlock.path_a, AltBlock.path_b, AltBlock.init,
    AltBlock.a, AltBlock.b, AltBlock.c, Block.default_p.
  assert (Hv1 : n * conv_side h fs1 0 * conv_side w fs1 0 <> 1).
  { destruct (decide (fs1 = 1)) as [->|Hne]; values_tac. }
  rewrite (Block_shape_forward nc nc fs1) by first [lia | assumption].
  cbn [mbind option_bind].
  rewrite Block_shape_forward by first [unfold conv_side; lia | values_tac].
  cbn [mbind option_bind].
  rewrite Block_shape_forward by first [unfold conv_side; lia | values_tac].
  cbn [mbind option_bind tadd relu ShapeLib].
  replace (conv_side (conv_side h fs1 0) fs1 0) with (h - 2 * (fs1 - 1))
    by (unfold conv_side; lia).
  replace (conv_side (conv_side w fs1 0) fs1 0) with (w - 2 * (fs1 - 1))
    by (unfold conv_side; lia).
  replace (conv_side h (2 * fs1 - 1) 0) with (h - 2 * (fs1 - 1))
    by (unfold conv_side; lia).
  replace (conv_side w (2 * fs1 - 1) 0) with (w - 2 * (fs1 - 1))
    by (unfold conv_side; lia).
  now rewrite shape_add_same.
Qed.

Lemma AltBlock_3_5_on_shapes_Some (nc : nat) (wa wb wc : BlockParams Shape)
    (s s' : Shape) :
  AltBlock.forward (AltBlock.init nc 3 5 wa wb wc) s = Some s' ->
  exists n h w, s = [n; nc; h + 4; w + 4] /\ 1 <= h /\ 1 <= w /\
                n * h * w <> 1 /\
                s' = [n; nc; h; w].
Proof.
  intros Hrun. pose proof Hrun as Hrun'.
  unfold AltBlock.forward in Hrun.
  apply bind_Some in Hrun as (y & _ & Hrun).
  apply bind_Some in Hrun as (z & Hz & _).
  unfold AltBlock.path_b, AltBlock.init, AltBlock.c, Block.default_p in Hz.
  apply Block_on_shapes_Some in Hz as (n & h & w & -> & Hh & Hw & Hv & _).
  assert (Hv' : n * (h - 4) * (w - 4) <> 1)
    by (refine (values_ne _ _ _ _ _ _ _ Hv); unfold conv_side; lia).
  destruct (AltBlock_3_5_on_shapes nc wa wb wc n h w) as (_ & _ & Hf);
    [lia | lia | assumption |].
  rewrite Hf in Hrun'. injection Hrun' as <-.
  exists n, (h - 4), (w - 4).
  split; [repeat f_equal; lia|]. split; [lia|]. split; [lia|]. now split.
Qed.

(** ** The topologies on shapes *)

Lemma Block3_on_shapes (i o k : nat) (wt : BlockParams Shape) (n h w : nat) :
  k <= h -> k <= w -> n * conv_side h k 0 * conv_side w k 0 <> 1 ->
  Layer_call (Block3 i o k wt) [n; i; h; w]
  = Some [n; o; conv_side h k 0; conv_side w k 0].
Proof.
  intros Hh Hw Hv. apply Block_shape_forward; unfold Block.default_p;
    first [lia | assumption].
Qed.

Lemma Block3_on_shapes_Some (i o k : nat) (wt : BlockParams Shape)
    (s s' : Shape) :
  Layer_call (Block3 i o (S k) wt) s = Some s' ->
  exists n h w, s = [n; i; h + k; w + k] /\ 1 <= h /\ 1 <= w /\
                n * h * w <> 1 /\
                s' = [n; o; h; w].
Proof.
  intros Hrun.
  apply Block_on_shapes_Some in Hrun as (n & h & w & -> & Hh & Hw & Hv & ->).
  unfold Block.default_p, conv_side in *.
  exists n, (h + 2 * 0 - S k + 1), (w + 2 * 0 - S k + 1).
  split; [repeat f_equal; lia|]. split; [lia|]. split; [lia|]. now split.
Qed.

Lemma head_on_shapes (wl bl : Shape) (n h w : nat) :
  Sequential_forward (head wl bl) [n; 64; h; w] = Some [n; 10].
Proof. reflexivity. Qed.

Lemma head_on_shapes_Some (wl bl : Shape) (s s' : Shape) :
  Sequential_forward (head wl bl) s = Some s' ->
  exists n h w, s = [n; 64; h; w] /\ s' = [n; 10].
Proof.
  unfold head. cbn [Sequential_forward Layer_call adaptive_avg_pool2d flatten
                    ShapeHead Linear_call in_features out_features lin_weight
                    lin_bias linear].
  destruct s as [|n [|c [|h [|w [|]]]]]; try discriminate.
  cbn [shape_adaptive_avg_pool2d mbind option_bind shape_flatten numel
       fold_right shape_linear].
  rewrite !Nat.mul_1_r.
  destruct (Nat.eqb_spec c 64) as [->|]; [|discriminate].
  intros [= <-]. eauto.
Qed.

Lemma Sequential_forward_cons {T : Type} `{TensorOps T} `{HeadOps T}
    (m : Layer T) (ms : list (Layer T)) (x : T) :
  Sequential_forward (m :: ms) x = Layer_call m x ≫= Sequential_forward ms.
Proof. reflexivity. Qed.

Lemma ResBlock_layer_on_shapes (nc : nat) (wa wb : BlockParams Shape)
    (n h w : nat) :
  1 <= h -> 1 <= w -> n * h * w <> 1 ->
  Layer_call (LResBlock (ResBlock.init nc 3 wa wb)) [n; nc; h; w]
  = Some [n; nc; h; w].
Proof. apply ResBlock_3_on_shapes. Qed.

Lemma AltBlock_layer_on_shapes (nc : nat) (wa wb wc : BlockParams Shape)
    (n h w : nat) :
  5 <= h -> 5 <= w -> n * (h - 4) * (w - 4) <> 1 ->
  Layer_call (LAltBlock (AltBlock.init nc 3 5 wa wb wc)) [n; nc; h; w]
  = Some [n; nc; h - 4; w - 4].
Proof. intros Hh Hw Hv. now apply AltBlock_3_5_on_shapes. Qed.

(** One layer of a pass on shapes that succeeds. *)
Ltac layer_ok :=
  rewrite Sequential_forward_cons;
  first
    [ rewrite Block3_on_shapes
        by first [unfold conv_side; lia | values_tac]
    | rewrite ResBlock_layer_on_shapes
        by first [unfold conv_side; lia | values_tac]
    | rewrite AltBlock_layer_on_shapes
        by first [unfold conv_side; lia | values_tac] ];
  cbn [mbind option_bind].

(** One layer of a pass on shapes that returned: what its input was. *)
Ltac layer_inv H :=
  rewrite Sequential_forward_cons in H;
  let s := fresh "s" in
  let Hl := fresh "Hl" in
  apply bind_Some in H as (s & Hl & H);
  first
    [ apply Block3_on_shapes_Some in Hl
        as (? & ? & ? & ? & ? & ? & ? & ->)
    | apply ResBlock_3_on_shapes_Some in Hl
        as (? & ? & ? & ? & ? & ? & ? & ->)
    | apply AltBlock_3_5_on_shapes_Some in Hl
        as (? & ? & ? & ? & ? & ? & ? & ->) ];
  simplify_eq.

(** The smallest map of a pass holds more than one value per channel, from
    what a layer of the pass found. *)
Ltac last_values :=
  match goal with
  | Hv : _ * _ * _ <> 1 |- _ * _ * _ <> 1 =>
      refine (values_ne _ _ _ _ _ _ _ Hv); unfold conv_side; lia
  end.

Section TopologiesOnShapes.
Variable ws : nat -> BlockParams Shape.
Variables wl bl : Shape.

Lemma net0_on_shapes (n h w : nat) :
  23 <= h -> 23 <= w -> n * (h - 22) * (w - 22) <> 1 ->
  Sequential_forward (net0 ws wl bl) [n; 3; h; w] = Some [n; 10].
Proof.
  intros Hh Hw Hv. unfold net0. cbn [app].
  do 10 layer_ok. apply head_on_shapes.
Qed.

Lemma net0_on_shapes_Some (n c h w : nat) (r : Shape) :
  Sequential_forward (net0 ws wl bl) [n; c; h; w] = Some r ->
  c = 3 /\ 23 <= h /\ 23 <= w /\ n * (h - 22) * (w - 22) <> 1.
Proof.
  intros Hrun. unfold net0 in Hrun. cbn [app] in Hrun.
  do 10 layer_inv Hrun.
  split; [reflexivity|]. split; [lia|]. split; [lia|]. last_values.
Qed.

Lemma net1_on_shapes (n h w : nat) :
  23 <= h -> 23 <= w -> n * (h - 22) * (w - 22) <> 1 ->
  Sequential_forward (net1 ws wl bl) [n; 3; h; w] = Some [n; 10].
Proof.
  intros Hh Hw Hv. unfold net1. cbn [app].
  do 7 layer_ok. apply head_on_shapes.
Qed.

Lemma net1_on_shapes_Some (n c h w : nat) (r : Shape) :
  Sequential_forward (net1 ws wl bl) [n; c; h; w] = Some r ->
  c = 3 /\ 23 <= h /\ 23 <= w /\ n * (h - 22) * (w - 22) <> 1.
Proof.
  intros Hrun. unfold net1 in Hrun. cbn [app] in Hrun.
  do 7 layer_inv Hrun.
  split; [reflexivity|]. split; [lia|]. split; [lia|]. last_values.
Qed.

Lemma net2_on_shapes (n h w : nat) :
  11 <= h -> 11 <= w -> n * (h - 10) * (w - 10) <> 1 ->
  Sequential_forward (net2 ws wl bl) [n; 3; h; w] = Some [n; 10].
Proof.
  intros Hh Hw Hv. unfold net2. cbn [app].
  do 7 layer_ok. apply head_on_shapes.
Qed.

Lemma net2_on_shapes_Some (n c h w : nat) (r : Shape) :
  Sequential_forward (net2 ws wl bl) [n; c; h; w] = Some r ->
  c = 3 /\ 11 <= h /\ 11 <= w /\ n * (h - 10) * (w - 10) <> 1.
Proof.
  intros Hrun. unfold net2 in Hrun. cbn [app] in Hrun.
  do 7 layer_inv Hrun.
  split; [reflexivity|]. split; [lia|]. split; [lia|]. last_values.
Qed.

Lemma net3_on_shapes (n h w : nat) :
  23 <= h -> 23 <= w -> n * (h - 22) * (w - 22) <> 1 ->
  Sequential_forward (net3 ws wl bl) [n; 3; h; w] = Some [n; 10].
Proof.
  intros Hh Hw Hv. unfold net3. cbn [app].
  do 7 layer_ok. apply head_on_shapes.
Qed.

Lemma net3_on_shapes_Some (n c h w : nat) (r : Shape) :
  Sequential_forward (net3 ws wl bl) [n; c; h; w] = Some r ->
  c = 3 /\ 23 <= h /\ 23 <= w /\ n * (h - 22) * (w - 22) <> 1.
Proof.
  intros Hrun. unfold net3 in Hrun. cbn [app] in Hrun.
  do 7 layer_inv Hrun.
  split; [reflexivity|]. split; [lia|]. split; [lia|]. last_values.
Qed.

End TopologiesOnShapes.

Lemma net3_alt_blocks {T : Type} (ws : nat -> BlockParams T) (wl bl : T)
    (m : AltBlock.t T) :
  LAltBlock m ∈ net3 ws wl bl ->
  exists c wa wb wc, m = AltBlock.init c 3 5 wa wb wc.
Proof.
  intros Hin. unfold net3, Block3, head in Hin. simpl in Hin.
  repeat (apply elem_of_cons in Hin as [Hin|Hin];
          [try discriminate; injection Hin as ->; eauto|]).
  now apply elem_of_nil in Hin.
Qed.

(** ** From shapes to tensors

    In a library that agrees with the shape rules, a forward pass succeeds
    exactly when the pass on shapes does, and returns a tensor of the shape
    the pass on shapes computes. *)

Lemma fmap_bind_hom {A B A' B' : Type} (h : A -> A') (h' : B -> B')
    (o : option A) (o' : option A')
    (f : A -> option B) (f' : A' -> option B') :
  h <$> o = o' -> (forall a, h' <$> f a = f' (h a)) ->
  h' <$> (o ≫= f) = o' ≫= f'.
Proof. intros <- Hf. destruct o; simpl; [apply Hf|reflexivity]. Qed.

Lemma fmap_Some_inv {A B : Type} (h : A -> B) (o : option A) (b : B) :
  h <$> o = Some b -> exists a, o = Some a /\ h a = b.
Proof. destruct o as [a|]; [|discriminate]. intros [= <-]. eauto. Qed.

Lemma fmap_None_inv {A B : Type} (h : A -> B) (o : option A) :
  h <$> o = None -> o = None.
Proof. now destruct o. Qed.

Section ShapeAbstraction.
Context {T : Type} `{TensorOps T} `{!ShapeLaws T}.

Lemma Block_norm_conv_shape (m : Block.t T) (x : T) :
  tshape <$> Block.norm_conv m x
  = Block.norm_conv (Block_map tshape m) (tshape x).
Proof.
  unfold Block.norm_conv. apply (fmap_bind_hom tshape tshape).
  - apply conv2d_shape.
  - intros c. apply batch_norm_shape.
Qed.

Lemma Block_forward_shape (m : Block.t T) (x : T) :
  tshape <$> Block.forward m x = Block.forward (Block_map tshape m) (tshape x).
Proof.
  unfold Block.forward. cbn [Block_map Block.rl].
  rewrite <- Block_norm_conv_shape.
  destruct (truthy (Block.rl m)); [|reflexivity].
  destruct (Block.norm_conv m x); simpl; [now rewrite relu_shape|reflexivity].
Qed.

Lemma sum_relu_shape (x y : T) :
  tshape <$> (relu <$> tadd x y)
  = relu <$> tadd (tshape x) (tshape y).
Proof.
  rewrite <- tadd_shape.
  destruct (tadd x y); simpl; [now rewrite relu_shape|reflexivity].
Qed.

Lemma ResBlock_branch_shape (m : ResBlock.t T) (x : T) :
  tshape <$> ResBlock.branch m x
  = ResBlock.branch (ResBlock_map tshape m) (tshape x).
Proof.
  unfold ResBlock.branch.
  apply (fmap_bind_hom tshape tshape); [apply Block_forward_shape|].
  intros u. apply Block_forward_shape.
Qed.

Lemma ResBlock_forward_shape (m : ResBlock.t T) (x : T) :
  tshape <$> ResBlock.forward m x
  = ResBlock.forward (ResBlock_map tshape m) (tshape x).
Proof.
  unfold ResBlock.forward.
  apply (fmap_bind_hom tshape tshape); [apply ResBlock_branch_shape|].
  intros y. apply sum_relu_shape.
Qed.

(** With kernel size 3 the padding of 1 makes the branch of a [ResBlock]
    keep the shape of its input, when the input holds more than one value
    per channel. *)
Lemma ResBlock_3_branch_shape (nc : nat) (wa wb : BlockParams T)
    (n h w : nat) (x : T) :
  tshape x = [n; nc; h; w] -> 1 <= h -> 1 <= w -> n * h * w <> 1 ->
  exists y, ResBlock.branch (ResBlock.init nc 3 wa wb) x = Some y /\
            tshape y = tshape x.
Proof.
  intros Hx Hh Hw Hv.
  pose proof (ResBlock_branch_shape (ResBlock.init nc 3 wa wb) x) as Hs.
  rewrite Hx in Hs. unfold ResBlock.branch at 2 in Hs.
  change (ResBlock_map tshape (ResBlock.init nc 3 wa wb))
    with (ResBlock.init nc 3 (BlockParams_map tshape wa)
            (BlockParams_map tshape wb)) in Hs.
  unfold ResBlock.init, ResBlock.a, ResBlock.b in Hs.
  rewrite Block_shape_forward in Hs by first [lia | values_tac].
  cbn [mbind option_bind] in Hs.
  rewrite Block_shape_forward in Hs
    by first [unfold conv_side; lia | values_tac].
  apply fmap_Some_inv in Hs as (y & Hy & Hsy).
  exists y. split; [exact Hy|]. rewrite Hsy, Hx.
  unfold conv_side. repeat f_equal; lia.
Qed.

Lemma AltBlock_path_a_shape (m : AltBlock.t T) (x : T) :
  tshape <$> AltBlock.path_a m x
  = AltBlock.path_a (AltBlock_map tshape m) (tshape x).
Proof.
  unfold AltBlock.path_a. apply (fmap_bind_hom tshape tshape); [apply Block_forward_shape|].
  intros u. apply Block_forward_shape.
Qed.

Lemma AltBlock_path_b_shape (m : AltBlock.t T) (x : T) :
  tshape <$> AltBlock.path_b m x
  = AltBlock.path_b (AltBlock_map tshape m) (tshape x).
Proof. apply Block_forward_shape. Qed.

Lemma AltBlock_forward_shape (m : AltBlock.t T) (x : T) :
  tshape <$> AltBlock.forward m x
  = AltBlock.forward (AltBlock_map tshape m) (tshape x).
Proof.
  unfold AltBlock.forward.
  apply (fmap_bind_hom tshape tshape); [apply AltBlock_path_a_shape|]. intros y.
  apply (fmap_bind_hom tshape tshape); [apply AltBlock_path_b_shape|]. intros z.
  apply sum_relu_shape.
Qed.

Context `{HeadOps T} `{!HeadShapeLaws T}.

Lemma Layer_call_shape (m : Layer T) (x : T) :
  tshape <$> Layer_call m x = Layer_call (Layer_map tshape m) (tshape x).
Proof.
  destruct m; cbn [Layer_call Layer_map].
  - apply Block_forward_shape.
  - apply ResBlock_forward_shape.
  - apply AltBlock_forward_shape.
  - apply adaptive_avg_pool2d_shape.
  - apply flatten_shape.
  - apply linear_shape.
Qed.

Lemma Sequential_forward_shape (ms : list (Layer T)) :
  forall x : T,
  tshape <$> Sequential_forward ms x
  = Sequential_forward (map (Layer_map tshape) ms) (tshape x).
Proof.
  induction ms as [|m ms IH]; intros x; [reflexivity|].
  cbn [Sequential_forward map].
  apply (fmap_bind_hom tshape tshape); [apply Layer_call_shape|exact IH].
Qed.

End ShapeAbstraction.

Lemma Block_map_init {T U : Type} (f : T -> U) (i o k p : nat) (rl : PyFlag)
    (w : BlockParams T) :
  Block_map f (Block.init i o k p rl w)
  = Block.init i o k p rl (BlockParams_map f w).
Proof. reflexivity. Qed.

Section BlockShapes.
Context {T : Type} `{TensorOps T} `{!ShapeLaws T}.

(** The shape a [Block] returns, or its failure, is that of its
    convolution followed by the check of its normalisation. *)
Lemma Block_init_shape (i o k p : nat) (rl : PyFlag) (wt : BlockParams T)
    (x : T) :
  tshape <$> Block.forward (Block.init i o k p rl wt) x
  = shape_conv2d i o k p (tshape x) ≫= shape_batch_norm o.
Proof. now rewrite Block_forward_shape, Block_map_init, Block_on_shapes. Qed.

(** A [Block] returns on an input its convolution accepts and maps to more
    than one value per channel. *)
Lemma Block_init_returns (i o k p : nat) (rl : PyFlag) (wt : BlockParams T)
    (n h w : nat) (x : T) :
  tshape x = [n; i; h; w] -> k <= h + 2 * p -> k <= w + 2 * p ->
  n * conv_side h k p * conv_side w k p <> 1 ->
  exists y, Block.forward (Block.init i o k p rl wt) x = Some y /\
            tshape y = [n; o; conv_side h k p; conv_side w k p].
Proof.
  intros Hx Hh Hw Hv.
  pose proof (Block_init_shape i o k p rl wt x) as Hs.
  rewrite Hx, shape_conv2d_ok in Hs by assumption.
  cbn [mbind option_bind] in Hs.
  rewrite shape_batch_norm_ok in Hs by assumption.
  now apply fmap_Some_inv in Hs.
Qed.

(** The convolution of a [Block] returns on every input of four dimensions
    with its input channels and sides its kernel fits in. *)
Lemma Block_conv_returns (i o k p : nat) (rl : PyFlag) (wt : BlockParams T)
    (n h w : nat) (x : T) :
  tshape x = [n; i; h; w] -> k <= h + 2 * p -> k <= w + 2 * p ->
  exists u, Conv2d_call (Block.conv (Block.init i o k p rl wt)) x = Some u /\
            tshape u = [n; o; conv_side h k p; conv_side w k p].
Proof.
  intros Hx Hh Hw.
  pose proof (conv2d_shape i o k p (init_conv_weight wt) (init_conv_bias wt) x)
    as Hs.
  rewrite Hx, shape_conv2d_ok in Hs by assumption.
  now apply fmap_Some_inv in Hs.
Qed.

End BlockShapes.

#[export] Instance ShapeLib_shape_laws : ShapeLaws Shape.
Proof.
  split; intros; cbn [tshape conv2d batch_norm relu tadd ShapeLib].
  - now destruct (shape_conv2d _ _ _ _ _).
  - now destruct (shape_batch_norm _ _).
  - reflexivity.
  - now destruct (shape_add _ _).
Qed.

#[export] Instance ShapeHead_shape_laws : HeadShapeLaws Shape.
Proof.
  split; intros;
    cbn [tshape adaptive_avg_pool2d flatten linear ShapeLib ShapeHead].
  - now destruct (shape_adaptive_avg_pool2d _ _).
  - now destruct (shape_flatten _).
  - now destruct (shape_linear _ _ _).
Qed.

#[export] Instance ZLib_shape_laws : ShapeLaws ZTensor.
Proof.
  split; intros; cbn [tshape conv2d batch_norm relu tadd ZLib].
  - unfold z_conv2d, shape_conv2d.
    destruct (zshape x) as [|N [|C [|Hh [|W [|]]]]]; try reflexivity.
    now destruct (_ && _).
  - unfold z_batch_norm, shape_batch_norm.
    destruct (zshape x) as [|N [|C [|Hh [|W [|]]]]]; try reflexivity.
    now destruct (_ && _).
  - reflexivity.
  - unfold z_add. now destruct (shape_add _ _).
Qed.

(** C7. The Plain-deep topology [net0] (ten [Block]s, the first of kernel
    size 5 and nine of kernel size 3, then pooling, flatten and the linear
    layer) maps every input of shape (batch, 3, 32, 32) to an output of shape
    (batch, 10), without a shape error. *)
Theorem net0_output_shape {T : Type} `{TensorOps T} `{HeadOps T}
    `{!ShapeLaws T} `{!HeadShapeLaws T}
    (ws : nat -> BlockParams T) (wl bl : T) (batch : nat) (x : T) :
  tshape x = [batch; 3; 32; 32] ->
  (exists y, Sequential_forward (net0 ws wl bl) x = Some y /\
             tshape y = [batch; 10]) /\
  map (fun m => match m with
                | LBlock b => Some (kernel_size (Block.conv b))
                | _ => None
                end) (net0 ws wl bl)
  = [Some 5; Some 3; Some 3; Some 3; Some 3; Some 3; Some 3; Some 3; Some 3;
     Some 3; None; None; None].
Proof.
  intros Hx. split; [|reflexivity].
  pose proof (Sequential_forward_shape (net0 ws wl bl) x) as Hs.
  rewrite Hx in Hs.
  assert (Hrun : Sequential_forward (map (Layer_map tshape) (net0 ws wl bl))
                   [batch; 3; 32; 32] = Some [batch; 10]).
  { change (map (Layer_map tshape) (net0 ws wl bl))
      with (net0 (fun k => BlockParams_map tshape (ws k))
              (tshape wl) (tshape bl)).
    apply net0_on_shapes; [lia | lia | apply many_values; lia]. }
  rewrite Hrun in Hs. now apply fmap_Some_inv in Hs.
Qed.

(** C7 on shapes, at a batch of 4. *)
Lemma net0_output_shape_witness :
  exists y : Shape,
    Sequential_forward (net0 (fun _ => mkBlockParams [] [] [] []) [] [])
                       [4; 3; 32; 32] = Some y /\
    y = [4; 10].
Proof.
  exact (proj1 (net0_output_shape (T := Shape)
                  (fun _ => mkBlockParams [] [] [] []) [] [] 4 [4; 3; 32; 32]
                  eq_refl)).
Defined.

(** C10. Every [AltBlock(nc, 3, 5)], the only form used in [net3], has zero
    padding on its three units. On every input of height and width at least
    5 the two kernel-3 convolutions of path A and the kernel-5 convolution of
    path B return, each path shrinking each side by exactly 4. The outputs
    of the two paths have that same shape, so their sum raises no shape
    error and the unit returns a tensor of that shape. The two paths return
    whenever the shrunken map holds more than one value per channel; on the
    inputs where it holds a single one the last normalisation of each path
    raises, before any sum. *)
Theorem AltBlock_3_5_shapes {T : Type} `{TensorOps T} `{!ShapeLaws T}
    (nc : nat) (wa wb wc : BlockParams T) (n h w : nat) (x : T) :
  tshape x = [n; nc; h; w] -> 5 <= h -> 5 <= w ->
  let self := AltBlock.init nc 3 5 wa wb wc in
  padding (Block.conv (AltBlock.a self)) = 0 /\
  padding (Block.conv (AltBlock.b self)) = 0 /\
  padding (Block.conv (AltBlock.c self)) = 0 /\
  (exists v u u',
     Block.forward (AltBlock.b self) x = Some v /\
     Conv2d_call (Block.conv (AltBlock.a self)) v = Some u /\
     tshape u = [n; nc; h - 4; w - 4] /\
     Conv2d_call (Block.conv (AltBlock.c self)) x = Some u' /\
     tshape u' = [n; nc; h - 4; w - 4]) /\
  (forall y z,
     AltBlock.path_a self x = Some y -> AltBlock.path_b self x = Some z ->
     tshape y = [n; nc; h - 4; w - 4] /\ tshape z = [n; nc; h - 4; w - 4] /\
     exists s out,
       tadd y z = Some s /\ AltBlock.forward self x = Some out /\
       tshape out = [n; nc; h - 4; w - 4]) /\
  (n * (h - 4) * (w - 4) <> 1 ->
   exists y z out,
     AltBlock.path_a self x = Some y /\ AltBlock.path_b self x = Some z /\
     AltBlock.forward self x = Some out /\
     tshape out = [n; nc; h - 4; w - 4]) /\
  (n * (h - 4) * (w - 4) = 1 ->
   AltBlock.path_a self x = None /\ AltBlock.path_b self x = None) /\
  (forall (ws : nat -> BlockParams T) (wl bl : T) (m : AltBlock.t T),
     LAltBlock m ∈ net3 ws wl bl ->
     exists c wa' wb' wc', m = AltBlock.init c 3 5 wa' wb' wc').
Proof.
  intros Hx Hh Hw self.
  pose proof (AltBlock_path_a_shape self x) as Hya.
  pose proof (AltBlock_path_b_shape self x) as Hyb.
  pose proof (AltBlock_forward_shape self x) as Hyf.
  rewrite Hx in Hya, Hyb, Hyf.
  change (AltBlock_map tshape self)
    with (AltBlock.init nc 3 5 (BlockParams_map tshape wa)
            (BlockParams_map tshape wb) (BlockParams_map tshape wc))
    in Hya, Hyb, Hyf.
  assert (Hok : n * (h - 4) * (w - 4) <> 1 ->
    exists y z out,
      AltBlock.path_a self x = Some y /\ tshape y = [n; nc; h - 4; w - 4] /\
      AltBlock.path_b self x = Some z /\ tshape z = [n; nc; h - 4; w - 4] /\
      AltBlock.forward self x = Some out /\
      tshape out = [n; nc; h - 4; w - 4]).
  { intros Hv.
    destruct (AltBlock_3_5_on_shapes nc (BlockParams_map tshape wa)
                (BlockParams_map tshape wb) (BlockParams_map tshape wc)
                n h w Hh Hw Hv) as (Ha & Hb & Hf).
    rewrite Ha in Hya. rewrite Hb in Hyb. rewrite Hf in Hyf.
    apply fmap_Some_inv in Hya as (y & Hy & Hsy).
    apply fmap_Some_inv in Hyb as (z & Hz & Hsz).
    apply fmap_Some_inv in Hyf as (out & Hout & Hso).
    exists y, z, out. auto 10. }
  assert (Hsingle : n * (h - 4) * (w - 4) = 1 ->
    AltBlock.path_a self x = None /\ AltBlock.path_b self x = None).
  { intros Hv.
    destruct (AltBlock_3_5_on_shapes_single nc (BlockParams_map tshape wa)
                (BlockParams_map tshape wb) (BlockParams_map tshape wc)
                n h w Hh Hw Hv) as (Ha & Hb & _).
    rewrite Ha in Hya. rewrite Hb in Hyb.
    split; eapply fmap_None_inv; eassumption. }
  split; [reflexivity|]. split; [reflexivity|]. split; [reflexivity|].
  split; [|split; [|split; [|split; [exact Hsingle|apply net3_alt_blocks]]]].
  - destruct (Block_init_returns nc nc 3 0 PyNone wb n h w x)
      as (v & Hv & Hsv); [assumption | lia | lia | values_tac |].
    destruct (Block_conv_returns nc nc 3 0 Block.default_rl wa
                n (conv_side h 3 0) (conv_side w 3 0) v)
      as (u & Hu & Hsu); [assumption | unfold conv_side; lia..|].
    destruct (Block_conv_returns nc nc 5 0 PyNone wc n h w x)
      as (u' & Hu' & Hsu'); [assumption | lia | lia |].
    exists v, u, u'. split; [exact Hv|]. split; [exact Hu|].
    split; [rewrite Hsu; unfold conv_side; repeat f_equal; lia|].
    split; [exact Hu'|].
    rewrite Hsu'. unfold conv_side. repeat f_equal; lia.
  - intros y z Hy Hz.
    destruct (decide (n * (h - 4) * (w - 4) = 1)) as [Hv|Hv].
    + destruct (Hsingle Hv) as [Ha _]. congruence.
    + destruct (Hok Hv)
        as (y' & z' & out & Hy' & Hsy & Hz' & Hsz & Hout & Hso).
      assert (y' = y) as -> by congruence.
      assert (z' = z) as -> by congruence.
      split; [exact Hsy|]. split; [exact Hsz|].
      pose proof Hout as Hsum. unfold AltBlock.forward in Hsum.
      rewrite Hy, Hz in Hsum. cbn [mbind option_bind] in Hsum.
      apply fmap_Some_inv in Hsum as (s & Hs & _).
      exists s, out. auto.
  - intros Hv.
    destruct (Hok Hv) as (y & z & out & Hy & _ & Hz & _ & Hout & Hso).
    exists y, z, out. auto.
Qed.

(** C10 at the unit [alt_generic] of the integer library and a 1x1x5x6
    input. *)
Lemma AltBlock_3_5_shapes_witness :
  exists out,
    AltBlock.forward alt_generic
      (mkZTensor [1; 1; 5; 6] (map Z.of_nat (seq 0 30))) = Some out /\
    tshape out = [1; 1; 1; 2].
Proof.
  destruct (@AltBlock_3_5_shapes ZTensor ZLib ZLib_shape_laws 1
              (unit_params 3 1 0 1 0) (unit_params 3 1 1 2 (-3))
              (unit_params 5 (-1) 2 1 1) 1 5 6
              (mkZTensor [1; 1; 5; 6] (map Z.of_nat (seq 0 30)))
              eq_refl ltac:(lia) ltac:(lia))
    as (_ & _ & _ & _ & _ & Hok & _).
  destruct Hok as (y & z & out & _ & _ & Hout & Hshape); [lia|].
  exists out. split; [exact Hout|exact Hshape].
Defined.

(** ** Batches of a loader *)

Lemma chunks_fuel_concat {A : Type} (n : nat) (fuel : nat) :
  0 < n -> forall l : list A, length l <= fuel ->
  concat (chunks_fuel fuel n l) = l.
Proof.
  intros Hn. induction fuel as [|fuel IH]; intros l Hl.
  - destruct l; [reflexivity|simpl in Hl; lia].
  - destruct l as [|a l]; [reflexivity|].
    cbn [chunks_fuel concat].
    rewrite IH; [apply take_drop|].
    rewrite length_drop. simpl in *. lia.
Qed.

Lemma chunks_fuel_length {A : Type} (n : nat) (fuel : nat) :
  0 < n -> forall l : list A, length l <= fuel ->
  length (chunks_fuel fuel n l) = (length l + n - 1) / n.
Proof.
  intros Hn. induction fuel as [|fuel IH]; intros l Hl.
  - destruct l; [|simpl in Hl; lia].
    simpl. symmetry. apply Nat.div_small. lia.
  - destruct l as [|a l].
    + simpl. symmetry. apply Nat.div_small. lia.
    + cbn [chunks_fuel length].
      rewrite IH by (rewrite length_drop; simpl in *; lia).
      rewrite length_drop. cbn [length].
      destruct (le_lt_dec n (S (length l))) as [Hge|Hlt].
      * replace (S (length l) + n - 1) with (S (length l) - n + n - 1 + 1 * n)
          by lia.
        rewrite Nat.div_add by lia. lia.
      * replace (S (length l) - n) with 0 by lia.
        rewrite (Nat.div_small (0 + n - 1)) by lia.
        apply (Nat.div_unique _ _ 1 (length l)); lia.
Qed.

Lemma chunks_concat {A : Type} (n : nat) (l : list A) :
  0 < n -> concat (chunks n l) = l.
Proof. intros Hn. now apply chunks_fuel_concat. Qed.

Lemma chunks_length {A : Type} (n : nat) (l : list A) :
  0 < n -> length (chunks n l) = (length l + n - 1) / n.
Proof. intros Hn. now apply chunks_fuel_length. Qed.

Lemma bs_pos : 0 < bs.
Proof. unfold bs. lia. Qed.

Section LoaderFacts.
Context {E : TrainEnv}.

Lemma trainloader_iter_length `{!SamplerOK E} (e : nat) :
  length (DataLoader_iter (sampler e) trainloader)
  = DataLoader_len trainloader.
Proof.
  unfold DataLoader_iter, DataLoader_len, trainloader. simpl.
  rewrite length_map, chunks_length by apply bs_pos.
  now rewrite (Permutation_length (sampler_perm e trainset)).
Qed.

Lemma testloader_iter_length (perm : list (Img * nat) -> list (Img * nat)) :
  length (DataLoader_iter perm testloader) = DataLoader_len testloader.
Proof.
  unfold DataLoader_iter, DataLoader_len, testloader. simpl.
  now rewrite length_map, chunks_length by apply bs_pos.
Qed.

Lemma DataLoader_len_pos (l : list (Img * nat)) (sh : bool) :
  l <> [] -> DataLoader_len (mkDataLoader l bs sh) <> 0.
Proof.
  intros Hl. unfold DataLoader_len. cbn [dataset batch_size].
  pose proof bs_pos as Hbs. intros H0.
  apply Nat.div_small_iff in H0; [|lia].
  destruct l as [|a l]; [congruence|]. cbn [length] in H0. lia.
Qed.

(** The labels of the batches of the test loader are the labels of the
    test set, in order. *)
Lemma testloader_labels (perm : list (Img * nat) -> list (Img * nat)) :
  concat (map snd (DataLoader_iter perm testloader)) = map snd testset.
Proof.
  unfold DataLoader_iter, testloader. simpl.
  rewrite <- (chunks_concat bs testset bs_pos) at 2.
  generalize (chunks bs testset). intros cs.
  induction cs as [|c cs IH]; [reflexivity|].
  simpl. now rewrite IH, map_app.
Qed.

Lemma trainloader_examples `{!SamplerOK E} (e : nat) :
  exists cs, DataLoader_iter (sampler e) trainloader = map collate cs /\
             concat cs ≡ₚ trainset.
Proof.
  exists (chunks bs (sampler e trainset)). split; [reflexivity|].
  rewrite chunks_concat by apply bs_pos. apply sampler_perm.
Qed.

End LoaderFacts.

(** ** The epochs of [train_loop] *)

Section LoopFacts.
Context {E : TrainEnv}.

(** Every row of the result is what [epoch] returned in that epoch. *)
Lemma epochs_loop_rows (es : list nat) :
  forall (acc : list Metrics) (w : World) (ms : list Metrics) (w' : World),
  epochs_loop es acc w = Some (ms, w') ->
  exists rows', ms = acc ++ rows' /\
    Forall2 (fun e m => exists wi wi', epoch e wi = Some (m, wi')) es rows'.
Proof.
  induction es as [|e es IH]; intros acc w ms w' Hrun.
  - injection Hrun as <- <-. exists []. split; [now rewrite app_nil_r|].
    constructor.
  - cbn [epochs_loop] in Hrun. unfold bind at 1 in Hrun.
    destruct (epoch e w) as [[m w1]|] eqn:He; [|discriminate].
    destruct (IH _ _ _ _ Hrun) as (rows' & -> & Hall).
    exists (m :: rows'). split; [now rewrite <- app_assoc|].
    constructor; [eauto|assumption].
Qed.

Lemma train_loop_rows (epochs : nat) (w : World) (ms : list Metrics)
    (w' : World) :
  train_loop epochs w = Some (ms, w') ->
  Forall2 (fun e m => exists wi wi', epoch e wi = Some (m, wi'))
          (seq 0 epochs) ms.
Proof.
  intros Hrun. apply epochs_loop_rows in Hrun as (rows' & -> & Hall).
  exact Hall.
Qed.

(** A row's components are the results of the two phases of its epoch. *)
Lemma epoch_phases (e : nat) (w w' : World) (m : Metrics) :
  epoch e w = Some (m, w') ->
  exists w1, train_phase e w = Some (train_loss m, w1) /\
             eval_phase w1 = Some ((valid_loss m, accuracy m), w').
Proof.
  unfold epoch, bind, ret. intros Hrun.
  destruct (train_phase e w) as [[tl w1]|]; [|discriminate].
  destruct (eval_phase w1) as [[[vl ac] w2]|] eqn:Hev; [|discriminate].
  injection Hrun as <- <-. exists w1. split; [reflexivity|exact Hev].
Qed.

(** One run of the body of the training loop. *)
Lemma train_batch_run (current : Q) (b : Batch) (w : World) :
  train_batch current b w
  = Some ((current + fst (train_step (st w) b))%Q,
          mkWorld (snd (train_step (st w) b)) (log w ++ batch_events b)).
Proof.
  unfold train_batch, train_step, bind, call, call_ret, ret. cbn [st log].
  destruct (model_call (zero_grad (st w)) (fst b)) as [out s2].
  cbn [st log fst snd]. do 3 f_equal.
  unfold batch_events. now rewrite <- !app_assoc.
Qed.

(** The training loop over batches: accumulated loss, state left, calls
    made. *)
Lemma train_batches_exact (l : list Batch) :
  forall (current : Q) (w : World),
  for_each train_batch current l w
  = Some (fold_left Qplus (batch_losses (st w) l) current,
          mkWorld (train_state (st w) l) (log w ++ flat_map batch_events l)).
Proof.
  induction l as [|b l IH]; intros current w.
  - destruct w as [s lg]. cbn. now rewrite app_nil_r.
  - cbn [for_each batch_losses flat_map]. unfold bind at 1.
    rewrite train_batch_run, IH. unfold train_state.
    cbn [st log fold_left].
    destruct (train_step (st w) b) as [q s1]. cbn [fst snd fold_left].
    now rewrite <- app_assoc.
Qed.

Lemma train_batches_run (l : list Batch) :
  forall (current : Q) (w : World),
  exists s',
    for_each train_batch current l w
    = Some (fold_left Qplus (batch_losses (st w) l) current,
            mkWorld s' (log w ++ flat_map batch_events l)).
Proof. intros current w. eexists. apply train_batches_exact. Qed.

(** The training phase of an epoch, from any world: the mean loss it
    returns and the world it leaves. *)
Lemma train_phase_exact `{!SamplerOK E} (e : nat) (w : World) :
  trainset <> [] ->
  train_phase e w
  = Some ((fold_left Qplus
             (batch_losses (model_train (st w))
                (DataLoader_iter (sampler e) trainloader)) 0
           / inject_Z (Z.of_nat
               (length (DataLoader_iter (sampler e) trainloader))))%Q,
          mkWorld
            (train_state (model_train (st w))
               (DataLoader_iter (sampler e) trainloader))
            (log w ++ EModelTrain
               :: flat_map batch_events
                    (DataLoader_iter (sampler e) trainloader))).
Proof.
  intros Hne.
  unfold train_phase, bind at 1, call. cbn [st log].
  unfold bind at 1. rewrite train_batches_exact.
  cbn [st log]. unfold truediv.
  destruct (Nat.eqb_spec (DataLoader_len trainloader) 0) as [H0|_].
  { now apply DataLoader_len_pos in H0. }
  unfold ret. rewrite trainloader_iter_length.
  now rewrite <- app_assoc.
Qed.

Lemma train_phase_run `{!SamplerOK E} (e : nat) (w : World) :
  trainset <> [] ->
  exists w',
    train_phase e w
    = Some ((fold_left Qplus
               (batch_losses (model_train (st w))
                  (DataLoader_iter (sampler e) trainloader)) 0
             / inject_Z (Z.of_nat
                 (length (DataLoader_iter (sampler e) trainloader))))%Q, w') /\
    log w' = log w ++ EModelTrain
               :: flat_map batch_events (DataLoader_iter (sampler e) trainloader).
Proof.
  intros Hne. eexists. split; [now apply train_phase_exact|reflexivity].
Qed.

End LoopFacts.

#[export] Instance ToyEnv_sampler : SamplerOK ToyEnv.
Proof. intros k l. simpl. symmetry. apply Permutation_rev. Qed.

(** ** Predictions *)

Lemma max_index_from_spec (l : list Q) :
  forall (pre : list Q) (best : Q) (bi : nat),
  pre !! bi = Some best ->
  (forall k u, pre !! k = Some u -> (u <= best)%Q) ->
  (forall k u, k < bi -> pre !! k = Some u -> (u < best)%Q) ->
  is_argmax (pre ++ l) (max_index_from best bi (length pre) l).
Proof.
  induction l as [|x l IH]; intros pre best bi Hbi Hmax Hfirst.
  - rewrite app_nil_r. exists best. repeat split; assumption.
  - cbn [max_index_from].
    replace (pre ++ x :: l) with ((pre ++ [x]) ++ l)
      by (now rewrite <- app_assoc).
    replace (S (length pre)) with (length (pre ++ [x]))
      by (rewrite length_app; simpl; lia).
    pose proof (lookup_lt_Some _ _ _ Hbi) as Hlt.
    destruct (Qle_bool x best) eqn:Hle.
    + apply Qle_bool_iff in Hle. apply IH.
      * now apply lookup_app_l_Some.
      * intros k u Hk. apply lookup_app_Some in Hk as [Hk|[_ Hk]]; [eauto|].
        destruct (k - length pre); [|discriminate].
        injection Hk as <-. exact Hle.
      * intros k u Hkbi Hk. rewrite lookup_app_l in Hk by lia. eauto.
    + assert (Hlt' : (best < x)%Q).
      { apply Qnot_le_lt. intros Hc. apply Qle_bool_iff in Hc. congruence. }
      apply IH.
      * now apply list_lookup_middle.
      * intros k u Hk. apply lookup_app_Some in Hk as [Hk|[_ Hk]].
        -- apply Qlt_le_weak. eapply Qle_lt_trans; eauto.
        -- destruct (k - length pre); [|discriminate].
           injection Hk as <-. apply Qle_refl.
      * intros k u Hkbi Hk. rewrite lookup_app_l in Hk by lia.
        eapply Qle_lt_trans; eauto.
Qed.

Lemma max_index_spec (r : list Q) (p : nat) :
  max_index r = Some p -> is_argmax r p.
Proof.
  destruct r as [|x l]; [discriminate|]. intros [= <-].
  apply (max_index_from_spec l [x] x 0).
  - reflexivity.
  - intros [|k] u Hk; [|discriminate]. injection Hk as <-. apply Qle_refl.
  - intros k u Hk. lia.
Qed.

Lemma max_index_is_Some (r : list Q) : r <> [] -> is_Some (max_index r).
Proof. destruct r; [congruence|]. intros _. simpl. eauto. Qed.

Lemma correct_app (p1 p2 l1 l2 : list nat) :
  length p1 = length l1 ->
  correct (p1 ++ p2) (l1 ++ l2) = correct p1 l1 + correct p2 l2.
Proof.
  unfold correct. revert l1.
  induction p1 as [|p p1 IH]; intros [|a l1] Hlen; try discriminate.
  - reflexivity.
  - injection Hlen as Hlen. cbn [app combine List.filter fst snd].
    specialize (IH l1 Hlen).
    destruct (p =? a); cbn [length]; rewrite IH; reflexivity.
Qed.

Lemma correct_le (preds labels : list nat) :
  correct preds labels <= length labels.
Proof.
  unfold correct. etransitivity; [apply List.filter_length_le|].
  rewrite length_combine. lia.
Qed.

(** ** The evaluation phase *)

Section EvalFacts.
Context {E : TrainEnv}.

Lemma predictions_spec (out : Out) (preds : list nat) :
  predictions out = Some preds ->
  Forall2 (fun r p => is_argmax (softmax r) p) (rows out) preds.
Proof.
  unfold predictions. intros Hp. apply mapM_Some in Hp.
  eapply Forall2_impl; [exact Hp|]. intros r p. apply max_index_spec.
Qed.

(** One run of the body of the evaluation loop, when it does not raise. *)
Lemma eval_batch_inv `{!ModelOK E} (acc acc' : Q * nat) (b : Batch)
    (w w' : World) :
  length (fst b) = length (snd b) ->
  eval_batch acc b w = Some (acc', w') ->
  exists preds,
    predictions (fst (model_call (st w) (fst b))) = Some preds /\
    length preds = length (snd b) /\
    acc' = ((fst acc + item (criterion (fst (model_call (st w) (fst b)))
                                       (snd b)))%Q,
            snd acc + correct preds (snd b)) /\
    st w' = snd (model_call (st w) (fst b)).
Proof.
  intros Hb.
  unfold eval_batch, bind, call_ret, of_option, ret, eq_count.
  cbn [st log].
  pose proof (rows_per_image (st w) (fst b)) as Hrows.
  destruct (model_call (st w) (fst b)) as [out s']. cbn [st log fst snd] in *.
  destruct (predictions out) as [preds|] eqn:Hp; [|discriminate].
  unfold predictions in Hp. apply length_mapM in Hp.
  destruct (Nat.eqb_spec (length preds) (length (snd b))); [|congruence].
  intros [= <- <-]. exists preds. repeat split. assumption.
Qed.

Lemma eval_batches_inv `{!ModelOK E} (l : list Batch) :
  Forall (fun b => length (fst b) = length (snd b)) l ->
  forall (acc acc' : Q * nat) (w w' : World),
  for_each eval_batch acc l w = Some (acc', w') ->
  exists preds,
    Forall2 (fun r p => is_argmax (softmax r) p) (eval_rows (st w) l) preds /\
    length preds = length (concat (map snd l)) /\
    snd acc' = snd acc + correct preds (concat (map snd l)).
Proof.
  induction 1 as [|b l Hwf _ IH]; intros acc acc' w w' Hrun.
  - injection Hrun as <- <-. exists []. repeat split; [constructor|].
    cbn. lia.
  - cbn [for_each] in Hrun. unfold bind at 1 in Hrun.
    destruct (eval_batch acc b w) as [[acc1 w1]|] eqn:Hb; [|discriminate].
    apply eval_batch_inv in Hb as (p1 & Hp1 & Hl1 & -> & Hst); [|exact Hwf].
    apply IH in Hrun as (p2 & Hp2 & Hl2 & Hacc).
    exists (p1 ++ p2). cbn [eval_rows map concat].
    destruct (model_call (st w) (fst b)) as [out s'].
    cbn [fst snd] in *. rewrite Hst in Hp2. repeat split.
    + apply Forall2_app; [now apply predictions_spec|assumption].
    + rewrite !length_app. lia.
    + rewrite Hacc, correct_app by assumption. lia.
Qed.

Lemma eval_batches_succeed `{!ModelOK E} (l : list Batch) :
  Forall (fun b => length (fst b) = length (snd b)) l ->
  forall (acc : Q * nat) (w : World),
  is_Some (for_each eval_batch acc l w).
Proof.
  induction 1 as [|b l Hb _ IH]; intros acc w; [cbn; eauto|].
  cbn [for_each]. unfold bind at 1.
  assert (Hstep : is_Some (eval_batch acc b w)).
  { unfold eval_batch, bind, call_ret, of_option, ret, eq_count.
    pose proof (rows_per_image (st w) (fst b)) as Hrows.
    pose proof (rows_nonempty (st w) (fst b)) as Hne.
    destruct (model_call (st w) (fst b)) as [out s']. cbn [fst snd] in *.
    assert (Hp : is_Some (predictions out)).
    { unfold predictions. apply mapM_is_Some, Forall_forall.
      intros r Hr. apply max_index_is_Some, Hne, Hr. }
    destruct Hp as [preds Hp]. rewrite Hp.
    unfold predictions in Hp. apply length_mapM in Hp.
    destruct (Nat.eqb_spec (length preds) (length (snd b))); [eauto|].
    congruence. }
  destruct Hstep as [[acc1 w1] ->]. apply IH.
Qed.

Lemma collate_lengths (cs : list (list (Img * nat))) :
  Forall (fun b : Batch => length (fst b) = length (snd b)) (map collate cs).
Proof.
  apply Forall_forall. intros b Hb. apply list_elem_of_fmap in Hb as (c & -> & _).
  unfold collate. cbn. now rewrite !length_map.
Qed.

Lemma truediv_inv (x q : Q) (n : nat) (w w' : World) :
  truediv x n w = Some (q, w') ->
  n <> 0 /\ q = (x / inject_Z (Z.of_nat n))%Q /\ w' = w.
Proof.
  unfold truediv. destruct (Nat.eqb_spec n 0); [discriminate|].
  intros [= <- <-]. auto.
Qed.

Lemma truediv_run (x : Q) (n : nat) (w : World) :
  n <> 0 -> truediv x n w = Some ((x / inject_Z (Z.of_nat n))%Q, w).
Proof. unfold truediv. now destruct (Nat.eqb_spec n 0). Qed.

(** What the evaluation phase returns, when it does not raise. *)
Lemma eval_phase_inv `{!ModelOK E} (w w' : World) (vl ac : Q) :
  eval_phase w = Some ((vl, ac), w') ->
  exists preds,
    Forall2 (fun r p => is_argmax (softmax r) p)
      (eval_rows (model_eval (set_grad_enabled false (st w)))
                 (DataLoader_iter (sampler 0) testloader)) preds /\
    length preds = length testset /\
    testset <> [] /\
    ac = (inject_Z (100 * Z.of_nat (correct preds (map snd testset)))
          / inject_Z (Z.of_nat (length testset)))%Q.
Proof.
  unfold eval_phase. unfold bind at 1 2, call. cbn [st log].
  unfold bind at 1.
  destruct (for_each eval_batch _ _ _) as [[r w1]|] eqn:Hloop; [|discriminate].
  unfold bind at 1.
  destruct (truediv (fst r) _ w1) as [[q1 w2]|]; [|discriminate].
  unfold bind at 1.
  destruct (truediv _ (length testset) w2) as [[q2 w3]|] eqn:Hdiv;
    [|discriminate].
  unfold bind, call, ret. intros [= <- <- <-].
  apply truediv_inv in Hdiv as (Hlen & -> & _).
  apply eval_batches_inv in Hloop as (preds & Hp & Hl & Hacc);
    [|apply collate_lengths].
  rewrite testloader_labels in Hl, Hacc. rewrite length_map in Hl.
  cbn [snd st] in *. exists preds. repeat split; try assumption.
  - intros Hnil. now rewrite Hnil in Hlen.
  - now rewrite Hacc.
Qed.

Lemma eval_phase_succeeds `{!ModelOK E} (w : World) :
  testset <> [] -> is_Some (eval_phase w).
Proof.
  intros Hne. unfold eval_phase. unfold bind at 1 2, call. cbn [st log].
  unfold bind at 1.
  match goal with
  | |- context [for_each eval_batch ?a ?l ?w0] =>
      destruct (eval_batches_succeed l (collate_lengths _) a w0)
        as [[r w1] ->]
  end.
  unfold bind at 1. rewrite truediv_run by now apply DataLoader_len_pos.
  unfold bind at 1. rewrite truediv_run
    by (destruct testset; [congruence|discriminate]).
  unfold bind, call, ret. eauto.
Qed.

End EvalFacts.

(** ** The state an epoch leaves *)

Section StateFacts.
Context {E : TrainEnv}.

Lemma eval_batch_state (acc acc' : Q * nat) (b : Batch) (w w' : World) :
  eval_batch acc b w = Some (acc', w') ->
  st w' = snd (model_call (st w) (fst b)).
Proof.
  unfold eval_batch, bind, call_ret, of_option, ret. cbn [st log].
  destruct (model_call (st w) (fst b)) as [out s']. cbn [st log fst snd].
  destruct (predictions out); [|discriminate].
  destruct (eq_count _ _); [|discriminate].
  intros [= _ <-]. reflexivity.
Qed.

Lemma eval_batches_state (l : list Batch) :
  forall (acc acc' : Q * nat) (w w' : World),
  for_each eval_batch acc l w = Some (acc', w') ->
  st w' = eval_state (st w) l.
Proof.
  induction l as [|b l IH]; intros acc acc' w w' Hrun.
  - injection Hrun as _ <-. reflexivity.
  - cbn [for_each] in Hrun. unfold bind at 1 in Hrun.
    destruct (eval_batch acc b w) as [[acc1 w1]|] eqn:Hb; [|discriminate].
    apply eval_batch_state in Hb. apply IH in Hrun.
    rewrite Hrun, Hb. reflexivity.
Qed.

(** The evaluation phase changes the state through its model calls and the
    two mode switches only. *)
Lemma eval_phase_state (w w' : World) (r : Q * Q) :
  eval_phase w = Some (r, w') ->
  st w' = set_grad_enabled true
            (eval_state (model_eval (set_grad_enabled false (st w)))
               (DataLoader_iter (sampler 0) testloader)).
Proof.
  unfold eval_phase. unfold bind at 1 2, call. cbn [st log].
  unfold bind at 1.
  destruct (for_each eval_batch _ _ _) as [[r0 w1]|] eqn:Hloop; [|discriminate].
  unfold bind at 1.
  destruct (truediv (fst r0) _ w1) as [[q1 w2]|] eqn:Hd1; [|discriminate].
  unfold bind at 1.
  destruct (truediv _ (length testset) w2) as [[q2 w3]|] eqn:Hd2;
    [|discriminate].
  unfold bind, call, ret. intros [= _ <-].
  apply truediv_inv in Hd1 as (_ & _ & ->).
  apply truediv_inv in Hd2 as (_ & _ & ->).
  apply eval_batches_state in Hloop. cbn [st] in *. now rewrite Hloop.
Qed.

(** One epoch: the state it leaves and the train_loss it records. *)
Lemma epoch_state_spec `{!SamplerOK E} (e : nat) (w w' : World) (m : Metrics) :
  trainset <> [] ->
  epoch e w = Some (m, w') ->
  st w' = epoch_state e (st w) /\
  train_loss m
  = (fold_left Qplus
       (batch_losses (model_train (st w))
          (DataLoader_iter (sampler e) trainloader)) 0
     / inject_Z (Z.of_nat (DataLoader_len trainloader)))%Q.
Proof.
  intros Hne Hep. apply epoch_phases in Hep as (w1 & Htp & Hev).
  rewrite train_phase_exact in Htp by assumption.
  injection Htp as Htl <-.
  apply eval_phase_state in Hev. cbn [st] in Hev.
  split; [exact Hev|]. now rewrite <- Htl, trainloader_iter_length.
Qed.

(** The epochs in order: each starts in the state the previous one left. *)
Lemma epochs_loop_state `{!SamplerOK E} (es : list nat) :
  trainset <> [] ->
  forall (acc : list Metrics) (w : World) (ms : list Metrics) (w' : World),
  epochs_loop es acc w = Some (ms, w') ->
  st w' = fold_left (fun s e => epoch_state e s) es (st w) /\
  exists rows',
    ms = acc ++ rows' /\ length rows' = length es /\
    forall (i e : nat) (m : Metrics),
      es !! i = Some e -> rows' !! i = Some m ->
      train_loss m
      = (fold_left Qplus
           (batch_losses
              (model_train
                 (fold_left (fun s e => epoch_state e s) (take i es) (st w)))
              (DataLoader_iter (sampler e) trainloader)) 0
         / inject_Z (Z.of_nat (DataLoader_len trainloader)))%Q.
Proof.
  intros Hne. induction es as [|e es IH]; intros acc w ms w' Hrun.
  - injection Hrun as <- <-. split; [reflexivity|].
    exists []. split; [now rewrite app_nil_r|]. split; [reflexivity|].
    intros i e m Hi. discriminate.
  - cbn [epochs_loop] in Hrun. unfold bind at 1 in Hrun.
    destruct (epoch e w) as [[m w1]|] eqn:He; [|discriminate].
    apply epoch_state_spec in He as (Hst & Htl); [|exact Hne].
    apply IH in Hrun as (Hst' & rows' & -> & Hlen & Hrows).
    split; [cbn [fold_left]; now rewrite Hst', Hst|].
    exists (m :: rows'). split; [now rewrite <- app_assoc|].
    split; [cbn [length]; now rewrite Hlen|].
    intros [|i] e' m' Hi Hm.
    + injection Hi as <-. injection Hm as <-. exact Htl.
    + cbn [take fold_left]. rewrite <- Hst. now apply Hrows.
Qed.

Lemma train_loop_state `{!SamplerOK E} (epochs : nat) (w0 wN : World)
    (ms : list Metrics) :
  trainset <> [] ->
  train_loop epochs w0 = Some (ms, wN) ->
  st wN = state_after epochs (st w0) /\
  forall (e : nat) (m : Metrics),
    ms !! e = Some m ->
    train_loss m
    = (fold_left Qplus
         (batch_losses (model_train (state_after e (st w0)))
            (DataLoader_iter (sampler e) trainloader)) 0
       / inject_Z (Z.of_nat (DataLoader_len trainloader)))%Q.
Proof.
  intros Hne Hrun.
  apply epochs_loop_state in Hrun as (Hst & rows' & -> & Hlen & Hrows);
    [|exact Hne].
  split; [exact Hst|]. intros e m Hm. cbn [app] in Hm.
  assert (He : e < epochs).
  { apply lookup_lt_Some in Hm. now rewrite Hlen, length_seq in Hm. }
  rewrite (Hrows e e m); [|now apply lookup_seq_lt|exact Hm].
  unfold state_after. rewrite take_seq.
  now replace (e `min` epochs) with e by lia.
Qed.

End StateFacts.

(** C4. In every epoch the training phase runs the loop body once per batch
    of the loader, in order: clear the gradients, call the model, compute the
    loss, back-propagate, one optimizer step, add the loss. The batches are
    the chunks of a permutation of the training set; the phase leaves the
    state these calls produce, batch after batch, and returns the
    accumulated loss divided by the number of batches. The train_loss
    recorded for epoch [e] is that quotient, computed from the state the
    epochs before [e] left. *)
Theorem train_phase_spec {E : TrainEnv} `{!SamplerOK E} :
  trainset <> [] ->
  (forall (e : nat) (w : World),
     let batches := DataLoader_iter (sampler e) trainloader in
     train_phase e w
     = Some ((fold_left Qplus (batch_losses (model_train (st w)) batches) 0
              / inject_Z (Z.of_nat (length batches)))%Q,
             mkWorld (train_state (model_train (st w)) batches)
               (log w ++ EModelTrain :: flat_map batch_events batches)) /\
     length batches = DataLoader_len trainloader /\
     exists cs, batches = map collate cs /\ concat cs ≡ₚ trainset) /\
  (forall (epochs : nat) (w0 wN : World) (ms : list Metrics),
     train_loop epochs w0 = Some (ms, wN) ->
     st wN = state_after epochs (st w0) /\
     forall (e : nat) (m : Metrics),
       ms !! e = Some m ->
       train_loss m
       = (fold_left Qplus
            (batch_losses (model_train (state_after e (st w0)))
               (DataLoader_iter (sampler e) trainloader)) 0
          / inject_Z (Z.of_nat (DataLoader_len trainloader)))%Q).
Proof.
  intros Hne. split.
  - intros e w batches. split; [now apply train_phase_exact|].
    split; [apply trainloader_iter_length|apply trainloader_examples].
  - intros epochs w0 wN ms Hrun. now apply train_loop_state.
Qed.

(** C4 at the first epoch of the small environment: 300 examples, three
    batches, so three steps take the weight from 1 to 4. *)
Lemma train_phase_spec_witness :
  exists w', train_phase (E := ToyEnv) 0 toy_world = Some ((300 # 3)%Q, w') /\
             st w' = 4%Z /\
             length (log w') = 16.
Proof.
  assert (Hne : trainset (TrainEnv := ToyEnv) <> []) by (simpl; discriminate).
  destruct (proj1 (train_phase_spec Hne) 0 toy_world) as (Hrun & _).
  eexists. split; [exact Hrun|]. split; reflexivity.
Defined.

(** C5. In the evaluation phase of every epoch the prediction for an example
    is the index of the (first) maximum of the softmax of its score row, and
    the recorded accuracy is 100 times the number of validation examples
    whose prediction equals the label, divided by the number of validation
    examples. *)
Theorem eval_phase_spec {E : TrainEnv} `{!ModelOK E} :
  testset <> [] ->
  (forall w : World,
     exists (preds : list nat) (vl : Q) (w' : World),
       eval_phase w
       = Some ((vl,
                (inject_Z (100 * Z.of_nat (correct preds (map snd testset)))
                 / inject_Z (Z.of_nat (length testset)))%Q), w') /\
       Forall2 (fun r p => is_argmax (softmax r) p)
         (eval_rows (model_eval (set_grad_enabled false (st w)))
                    (DataLoader_iter (sampler 0) testloader)) preds /\
       length preds = length testset) /\
  (forall (epochs : nat) (w0 wN : World) (ms : list Metrics) (e : nat)
          (m : Metrics),
     train_loop epochs w0 = Some (ms, wN) ->
     ms !! e = Some m ->
     exists (w : World) (preds : list nat),
       Forall2 (fun r p => is_argmax (softmax r) p)
         (eval_rows (model_eval (set_grad_enabled false (st w)))
                    (DataLoader_iter (sampler 0) testloader)) preds /\
       length preds = length testset /\
       accuracy m
       = (inject_Z (100 * Z.of_nat (correct preds (map snd testset)))
          / inject_Z (Z.of_nat (length testset)))%Q).
Proof.
  intros Hne. split.
  - intros w. destruct (eval_phase_succeeds w Hne) as [[[vl ac] w'] Hrun].
    destruct (eval_phase_inv _ _ _ _ Hrun) as (preds & Hp & Hl & _ & ->).
    exists preds, vl, w'. auto.
  - intros epochs w0 wN ms e m Hrun Hm.
    apply train_loop_rows in Hrun.
    destruct (Forall2_lookup_r _ _ _ _ _ Hrun Hm) as (e' & _ & wi & wi' & Hep).
    apply epoch_phases in Hep as (w1 & _ & Hev).
    apply eval_phase_inv in Hev as (preds & Hp & Hl & _ & Hac).
    exists w1, preds. auto.
Qed.

#[export] Instance ToyEnv_model : ModelOK ToyEnv.
Proof.
  split.
  - intros s imgs. simpl. unfold toy_model_call. simpl. apply length_map.
  - intros s imgs r Hr. simpl in *. unfold toy_model_call in Hr. simpl in Hr.
    apply list_elem_of_fmap in Hr as (x & -> & _). discriminate.
Qed.

(** C5 at the small environment: 200 validation examples, two batches. *)
Lemma eval_phase_spec_witness :
  exists (preds : list nat) (vl : Q) (w' : World),
    eval_phase (E := ToyEnv) toy_world
    = Some ((vl, (inject_Z (100 * Z.of_nat (correct preds (map snd (toy_data 200))))
                  / inject_Z 200)%Q), w') /\
    length preds = 200.
Proof.
  assert (Hne : testset (TrainEnv := ToyEnv) <> []) by (simpl; discriminate).
  destruct (proj1 (eval_phase_spec Hne) toy_world)
    as (preds & vl & w' & Hrun & _ & Hlen).
  exists preds, vl, w'. split; [exact Hrun|exact Hlen].
Defined.

Example toy_eval_phase :
  fst <$> eval_phase (E := ToyEnv) toy_world
  = Some ((200 # 2)%Q, (10000 # 200)%Q).
Proof. vm_compute. reflexivity. Qed.

(** ** Bounds on the recorded metrics *)

Lemma Qdiv_nat_nonneg (x : Q) (n : nat) :
  (0 <= x)%Q -> n <> 0 -> (0 <= x / inject_Z (Z.of_nat n))%Q.
Proof.
  intros Hx Hn. apply Qle_shift_div_l.
  - unfold Qlt. simpl. lia.
  - now rewrite Qmult_0_l.
Qed.

Lemma Qpercent_le_100 (c n : nat) :
  c <= n -> n <> 0 ->
  (inject_Z (100 * Z.of_nat c) / inject_Z (Z.of_nat n) <= 100)%Q.
Proof.
  intros Hc Hn. apply Qle_shift_div_r.
  - unfold Qlt. simpl. lia.
  - unfold Qle. simpl. lia.
Qed.

Lemma fold_left_Qplus_nonneg (l : list Q) :
  Forall (fun q => (0 <= q)%Q) l ->
  forall x, (0 <= x)%Q -> (0 <= fold_left Qplus l x)%Q.
Proof.
  induction 1 as [|q l Hq _ IH]; intros x Hx; [exact Hx|].
  cbn [fold_left]. apply IH.
  replace 0%Q with (0 + 0)%Q by reflexivity. now apply Qplus_le_compat.
Qed.

Section BoundFacts.
Context {E : TrainEnv}.

Lemma batch_losses_nonneg `{!LossNonneg E} (l : list Batch) :
  forall s, Forall (fun q => (0 <= q)%Q) (batch_losses s l).
Proof.
  induction l as [|b l IH]; intros s; [constructor|].
  cbn [batch_losses]. unfold train_step.
  destruct (model_call (zero_grad s) (fst b)) as [out s2].
  constructor; [apply loss_nonneg|apply IH].
Qed.

Lemma train_phase_nonneg `{!LossNonneg E} (e : nat) (w w' : World) (q : Q) :
  train_phase e w = Some (q, w') -> (0 <= q)%Q.
Proof.
  unfold train_phase, bind at 1, call. cbn [st log]. unfold bind at 1.
  match goal with
  | |- context [for_each train_batch ?c ?l ?w0] =>
      destruct (train_batches_run l c w0) as [s' ->]
  end.
  intros Hdiv. apply truediv_inv in Hdiv as (Hn & -> & _).
  apply Qdiv_nat_nonneg; [|assumption].
  apply fold_left_Qplus_nonneg; [apply batch_losses_nonneg|apply Qle_refl].
Qed.

Lemma eval_phase_accuracy_bounds `{!ModelOK E} (w w' : World) (vl ac : Q) :
  eval_phase w = Some ((vl, ac), w') -> (0 <= ac)%Q /\ (ac <= 100)%Q.
Proof.
  intros Hrun. apply eval_phase_inv in Hrun as (preds & _ & _ & Hne & ->).
  assert (Hn : length testset <> 0) by (destruct testset; [congruence|discriminate]).
  split.
  - apply Qdiv_nat_nonneg; [|assumption]. unfold Qle. simpl. lia.
  - apply Qpercent_le_100; [|assumption].
    etransitivity; [apply correct_le|]. now rewrite length_map.
Qed.

(** With a non-empty training and test set, a model that returns one
    non-empty score row per image and a sampler that permutes, the loop
    returns one row per epoch. *)
Lemma train_loop_succeeds `{!ModelOK E} `{!SamplerOK E} (epochs : nat)
    (w : World) :
  trainset <> [] -> testset <> [] ->
  exists ms w', train_loop epochs w = Some (ms, w') /\ length ms = epochs.
Proof.
  intros Htr Hte. unfold train_loop.
  assert (Hgen : forall es acc w0, exists ms w',
             epochs_loop es acc w0 = Some (ms, w') /\
             length ms = length acc + length es).
  { induction es as [|e es IH]; intros acc w0.
    - exists acc, w0. split; [reflexivity|simpl; lia].
    - cbn [epochs_loop]. unfold bind at 1, epoch, bind at 1.
      destruct (train_phase_run e w0 Htr) as (w1 & -> & _).
      unfold bind at 1.
      destruct (eval_phase_succeeds w1 Hte) as [[r w2] ->].
      unfold ret.
      destruct (IH (acc ++ [mkMetrics
        (fold_left Qplus
           (batch_losses (model_train (st w0))
              (DataLoader_iter (sampler e) trainloader)) 0
         / inject_Z (Z.of_nat
             (length (DataLoader_iter (sampler e) trainloader))))%Q
        (fst r) (snd r)]) w2) as (ms & w' & -> & Hlen).
      exists ms, w'. split; [reflexivity|].
      rewrite Hlen, length_app. simpl. lia. }
  destruct (Hgen (seq 0 epochs) [] w) as (ms & w' & Hrun & Hlen).
  exists ms, w'. split; [assumption|]. rewrite Hlen, length_seq. reflexivity.
Qed.

End BoundFacts.

(** C6. Given that the loss of every batch is non-negative (and that the
    model returns one score row per image), every row recorded by
    [train_loop] has a train_loss of at least 0 and an accuracy in [0, 100];
    there is one row per epoch. *)
Theorem metrics_bounds {E : TrainEnv} `{!LossNonneg E} `{!ModelOK E}
    (epochs : nat) (w w' : World) (ms : list Metrics) :
  train_loop epochs w = Some (ms, w') ->
  length ms = epochs /\
  Forall (fun m => (0 <= train_loss m)%Q /\
                   (0 <= accuracy m)%Q /\ (accuracy m <= 100)%Q) ms.
Proof.
  intros Hrun. apply train_loop_rows in Hrun. split.
  - apply Forall2_length in Hrun. now rewrite length_seq in Hrun.
  - apply Forall_forall. intros m Hm.
    apply list_elem_of_lookup in Hm as [i Hi].
    destruct (Forall2_lookup_r _ _ _ _ _ Hrun Hi) as (e & _ & wi & wi' & Hep).
    apply epoch_phases in Hep as (w1 & Htp & Hev).
    split; [exact (train_phase_nonneg _ _ _ _ Htp)|].
    exact (eval_phase_accuracy_bounds _ _ _ _ Hev).
Qed.

#[export] Instance ToyEnv_loss : LossNonneg ToyEnv.
Proof. intros out lab. simpl. unfold Qle. simpl. lia. Qed.

Example toy_train_loop :
  fst <$> train_loop (E := ToyEnv) 2 toy_world
  = Some [mkMetrics (300 # 3) (200 # 2) (10000 # 200);
          mkMetrics (300 # 3) (200 # 2) (10000 # 200)].
Proof. vm_compute. reflexivity. Qed.

(** C6 at two epochs of the small environment. *)
Lemma metrics_bounds_witness :
  exists ms w',
    train_loop (E := ToyEnv) 2 toy_world = Some (ms, w') /\
    length ms = 2 /\
    Forall (fun m => (0 <= train_loss m)%Q /\
                     (0 <= accuracy m)%Q /\ (accuracy m <= 100)%Q) ms.
Proof.
  destruct (train_loop_succeeds (E := ToyEnv) 2 toy_world)
    as (ms & w' & Hrun & _); [simpl; discriminate..|].
  exists ms, w'. split; [exact Hrun|].
  exact (metrics_bounds 2 toy_world w' ms Hrun).
Defined.

(** * Further properties of the blocks and topologies *)

(** ** A block and its convolution *)

(** X1. A [Block] raises when its convolution raises. When the convolution
    returns, its output has the output channels the normalisation was built
    for, and the [Block] returns a tensor of that shape exactly when that
    output holds more than one value per channel: on a single value per
    channel the normalisation, in training mode, raises. *)
Theorem Block_fails_in_conv_or_norm {T : Type} `{TensorOps T} `{!ShapeLaws T}
    (c_in c_out fs p : nat) (rl : PyFlag) (w : BlockParams T) (x : T) :
  let conv := conv2d c_in c_out fs p (init_conv_weight w) (init_conv_bias w) in
  let self := Block.init c_in c_out fs p rl w in
  (conv x = None -> Block.forward self x = None) /\
  (forall u, conv x = Some u ->
     exists n h' w',
       tshape u = [n; c_out; h'; w'] /\
       (n * h' * w' <> 1 ->
        exists y, Block.forward self x = Some y /\ tshape y = tshape u) /\
       (n * h' * w' = 1 -> Block.forward self x = None)).
Proof.
  intros conv self.
  pose proof (Block_init_shape c_in c_out fs p rl w x) as Hs.
  pose proof (conv2d_shape c_in c_out fs p (init_conv_weight w)
                (init_conv_bias w) x) as Hc.
  fold conv in Hc. fold self in Hs. split.
  - intros Hnone. rewrite Hnone in Hc. cbn in Hc. rewrite <- Hc in Hs.
    now apply fmap_None_inv in Hs.
  - intros u Hu. rewrite Hu in Hc. cbn in Hc. rewrite <- Hc in Hs.
    symmetry in Hc.
    apply shape_conv2d_Some in Hc as (n & h & w0 & _ & _ & _ & Hsu).
    exists n, (conv_side h fs p), (conv_side w0 fs p).
    split; [exact Hsu|]. rewrite Hsu in Hs. cbn [mbind option_bind] in Hs.
    split; intros Hv.
    + rewrite shape_batch_norm_ok in Hs by assumption.
      apply fmap_Some_inv in Hs as (y & Hy & Hsy).
      exists y. split; [exact Hy|congruence].
    + rewrite shape_batch_norm_single in Hs by assumption.
      now apply fmap_None_inv in Hs.
Qed.

(** X1 at a one-channel unit of the integer library with a 3-wide kernel:
    a 1x1x3x3 input leaves a single value, on which the unit raises; a
    2x1x3x3 input leaves two, and the unit returns them. *)
Lemma Block_fails_in_conv_or_norm_witness :
  Block.forward (Block.init 1 1 3 0 PyNone (unit_params 3 1 1 2 (-3)))
    (zfull 1 [1; 1; 3; 3]) = None /\
  exists y,
    Block.forward (Block.init 1 1 3 0 PyNone (unit_params 3 1 1 2 (-3)))
      (zfull 1 [2; 1; 3; 3]) = Some y /\
    tshape y = [2; 1; 1; 1].
Proof.
  split.
  - destruct (proj2 (@Block_fails_in_conv_or_norm ZTensor ZLib ZLib_shape_laws
                       1 1 3 0 PyNone (unit_params 3 1 1 2 (-3))
                       (zfull 1 [1; 1; 3; 3])) _ eq_refl)
      as (n & h & w & Hs & _ & Hsingle).
    apply Hsingle. injection Hs as <- <- <-. reflexivity.
  - destruct (proj2 (@Block_fails_in_conv_or_norm ZTensor ZLib ZLib_shape_laws
                       1 1 3 0 PyNone (unit_params 3 1 1 2 (-3))
                       (zfull 1 [2; 1; 3; 3])) _ eq_refl)
      as (n & h & w & Hs & Hok & _).
    apply Hok. injection Hs as <- <- <-. discriminate.
Defined.

(** X2. A [Block] whose kernel size is [2p + 1] for its padding [p] keeps
    the height and width of every input with the expected channels,
    non-empty sides and more than one value per channel; only the channel
    count changes. *)
Theorem Block_same_padding {T : Type} `{TensorOps T} `{!ShapeLaws T}
    (c_in c_out p : nat) (rl : PyFlag) (wt : BlockParams T)
    (n h w : nat) (x : T) :
  tshape x = [n; c_in; h; w] -> 1 <= h -> 1 <= w -> n * h * w <> 1 ->
  exists y, Block.forward (Block.init c_in c_out (2 * p + 1) p rl wt) x = Some y /\
            tshape y = [n; c_out; h; w].
Proof.
  intros Hx Hh Hw Hv.
  pose proof (Block_init_shape c_in c_out (2 * p + 1) p rl wt x) as Hs.
  rewrite Hx, shape_conv2d_ok in Hs by lia.
  cbn [mbind option_bind] in Hs.
  replace (conv_side h (2 * p + 1) p) with h in Hs by (unfold conv_side; lia).
  replace (conv_side w (2 * p + 1) p) with w in Hs by (unfold conv_side; lia).
  rewrite shape_batch_norm_ok in Hs by assumption.
  now apply fmap_Some_inv in Hs.
Qed.

(** X2 at a 5-wide kernel with padding 2 on a 1x1x3x4 input. *)
Lemma Block_same_padding_witness :
  exists y,
    Block.forward (Block.init 1 1 5 2 Block.default_rl (unit_params 5 1 0 1 0))
      (zfull 2 [1; 1; 3; 4]) = Some y /\
    tshape y = [1; 1; 3; 4].
Proof.
  exact (@Block_same_padding ZTensor ZLib ZLib_shape_laws 1 1 2
           Block.default_rl (unit_params 5 1 0 1 0) 1 3 4
           (zfull 2 [1; 1; 3; 4]) eq_refl ltac:(lia) ltac:(lia) ltac:(lia)).
Defined.

(** ** The composite units: which inputs they accept *)

(** X3. A [ResBlock] of kernel size 3 accepts every input with [nc]
    channels, non-empty sides and more than one value per channel, and
    returns a tensor of the shape of its input. *)
Theorem ResBlock_3_keeps_shape {T : Type} `{TensorOps T} `{!ShapeLaws T}
    (nc : nat) (wa wb : BlockParams T) (n h w : nat) (x : T) :
  tshape x = [n; nc; h; w] -> 1 <= h -> 1 <= w -> n * h * w <> 1 ->
  exists y, ResBlock.forward (ResBlock.init nc 3 wa wb) x = Some y /\
            tshape y = tshape x.
Proof.
  intros Hx Hh Hw Hv.
  pose proof (ResBlock_forward_shape (ResBlock.init nc 3 wa wb) x) as Hs.
  rewrite Hx in Hs.
  change (ResBlock_map tshape (ResBlock.init nc 3 wa wb))
    with (ResBlock.init nc 3 (BlockParams_map tshape wa)
            (BlockParams_map tshape wb)) in Hs.
  rewrite ResBlock_3_on_shapes in Hs by assumption.
  apply fmap_Some_inv in Hs as (y & Hy & Hsy).
  exists y. split; [exact Hy|congruence].
Qed.

(** X3 at the one-channel unit [res_example] and a 2x1x2x2 input. *)
Lemma ResBlock_3_keeps_shape_witness :
  exists y, ResBlock.forward res_example (zfull 0 [2; 1; 2; 2]) = Some y /\
            tshape y = [2; 1; 2; 2].
Proof.
  exact (@ResBlock_3_keeps_shape ZTensor ZLib ZLib_shape_laws 1
           (unit_params 3 1 0 0 1) (unit_params 3 1 0 0 (-1)) 2 2 2
           (zfull 0 [2; 1; 2; 2]) eq_refl ltac:(lia) ltac:(lia) ltac:(lia)).
Defined.

(** X4. A [Block], a [ResBlock] and an [AltBlock] built for [nc] input
    channels all raise on an input with another number of channels. *)
Theorem units_reject_other_channels {T : Type} `{TensorOps T} `{!ShapeLaws T}
    (nc c_out fs fs2 p : nat) (rl : PyFlag) (wa wb wc : BlockParams T)
    (n c h w : nat) (x : T) :
  tshape x = [n; c; h; w] -> c <> nc ->
  Block.forward (Block.init nc c_out fs p rl wa) x = None /\
  ResBlock.forward (ResBlock.init nc fs wa wb) x = None /\
  AltBlock.forward (AltBlock.init nc fs fs2 wa wb wc) x = None.
Proof.
  intros Hx Hc. repeat split.
  - apply (fmap_None_inv tshape).
    now rewrite Block_init_shape, Hx, shape_conv2d_channels.
  - apply (fmap_None_inv tshape).
    rewrite ResBlock_forward_shape, Hx.
    change (ResBlock_map tshape (ResBlock.init nc fs wa wb))
      with (ResBlock.init nc fs (BlockParams_map tshape wa)
              (BlockParams_map tshape wb)).
    unfold ResBlock.forward, ResBlock.branch, ResBlock.init, ResBlock.a,
      ResBlock.b.
    now rewrite Block_on_shapes, shape_conv2d_channels.
  - apply (fmap_None_inv tshape).
    rewrite AltBlock_forward_shape, Hx.
    change (AltBlock_map tshape (AltBlock.init nc fs fs2 wa wb wc))
      with (AltBlock.init nc fs fs2 (BlockParams_map tshape wa)
              (BlockParams_map tshape wb) (BlockParams_map tshape wc)).
    unfold AltBlock.forward, AltBlock.path_a, AltBlock.init, AltBlock.a,
      AltBlock.b.
    now rewrite Block_on_shapes, shape_conv2d_channels.
Qed.

(** X4 at one-channel units of the integer library and a two-channel
    input. *)
Lemma units_reject_other_channels_witness :
  Block.forward (Block.init 1 1 3 1 PyNone (unit_params 3 1 0 0 1))
    (zfull 0 [1; 2; 5; 5]) = None /\
  ResBlock.forward res_example (zfull 0 [1; 2; 5; 5]) = None /\
  AltBlock.forward alt_example (zfull 0 [1; 2; 5; 5]) = None.
Proof.
  destruct (@units_reject_other_channels ZTensor ZLib ZLib_shape_laws
              1 1 3 5 1 PyNone (unit_params 3 1 0 0 1)
              (unit_params 3 1 0 0 (-1)) (unit_params 5 1 0 0 0)
              1 2 5 5 (zfull 0 [1; 2; 5; 5]) eq_refl ltac:(lia))
    as (Hb & _ & _).
  split; [exact Hb|]. split; reflexivity.
Defined.

(** X5. An [AltBlock(nc, 3, 5)] raises on every input whose height or width
    is below 5: the 5-wide kernel of path B does not fit. *)
Theorem AltBlock_3_5_too_small {T : Type} `{TensorOps T} `{!ShapeLaws T}
    (nc : nat) (wa wb wc : BlockParams T) (n c h w : nat) (x : T) :
  tshape x = [n; c; h; w] -> h < 5 \/ w < 5 ->
  AltBlock.path_b (AltBlock.init nc 3 5 wa wb wc) x = None /\
  AltBlock.forward (AltBlock.init nc 3 5 wa wb wc) x = None.
Proof.
  intros Hx Hsmall.
  assert (Hb : AltBlock.path_b (AltBlock.init nc 3 5 wa wb wc) x = None).
  { apply (fmap_None_inv tshape).
    unfold AltBlock.path_b, AltBlock.init, AltBlock.c, Block.default_p.
    rewrite Block_init_shape, Hx.
    now rewrite shape_conv2d_small by lia. }
  split; [exact Hb|].
  unfold AltBlock.forward. rewrite Hb.
  now destruct (AltBlock.path_a _ x).
Qed.

(** X5 at the unit [alt_generic] and a 1x1x4x9 input. *)
Lemma AltBlock_3_5_too_small_witness :
  AltBlock.path_b alt_generic (zfull 1 [1; 1; 4; 9]) = None /\
  AltBlock.forward alt_generic (zfull 1 [1; 1; 4; 9]) = None.
Proof.
  exact (@AltBlock_3_5_too_small ZTensor ZLib ZLib_shape_laws 1
           (unit_params 3 1 0 1 0) (unit_params 3 1 1 2 (-3))
           (unit_params 5 (-1) 2 1 1) 1 1 4 9 (zfull 1 [1; 1; 4; 9])
           eq_refl ltac:(lia)).
Defined.

(** X6. Whenever the second kernel size is [2 * fs1 - 1], the two paths of
    an [AltBlock] return the same shape and the unit succeeds on every input
    that leaves more than one value per channel: each side of the input, if
    at least [2 * fs1 - 1], shrinks by [2 * (fs1 - 1)]. *)
Theorem AltBlock_matched_kernels {T : Type} `{TensorOps T} `{!ShapeLaws T}
    (nc fs1 : nat) (wa wb wc : BlockParams T) (n h w : nat) (x : T) :
  tshape x = [n; nc; h; w] ->
  1 <= fs1 -> 2 * fs1 - 1 <= h -> 2 * fs1 - 1 <= w ->
  n * (h - 2 * (fs1 - 1)) * (w - 2 * (fs1 - 1)) <> 1 ->
  exists y,
    AltBlock.forward (AltBlock.init nc fs1 (2 * fs1 - 1) wa wb wc) x = Some y /\
    tshape y = [n; nc; h - 2 * (fs1 - 1); w - 2 * (fs1 - 1)].
Proof.
  intros Hx Hfs Hh Hw Hv.
  pose proof (AltBlock_forward_shape
                (AltBlock.init nc fs1 (2 * fs1 - 1) wa wb wc) x) as Hs.
  rewrite Hx in Hs.
  change (AltBlock_map tshape (AltBlock.init nc fs1 (2 * fs1 - 1) wa wb wc))
    with (AltBlock.init nc fs1 (2 * fs1 - 1) (BlockParams_map tshape wa)
            (BlockParams_map tshape wb) (BlockParams_map tshape wc)) in Hs.
  rewrite AltBlock_on_shapes in Hs by assumption.
  now apply fmap_Some_inv in Hs.
Qed.

(** X6 at kernel sizes 2 and 3 on a 1x1x3x4 input. *)
Lemma AltBlock_matched_kernels_witness :
  exists y,
    AltBlock.forward
      (AltBlock.init 1 2 3 (unit_params 2 1 0 1 0) (unit_params 2 1 0 1 0)
         (unit_params 3 1 0 1 0))
      (zfull 1 [1; 1; 3; 4]) = Some y /\
    tshape y = [1; 1; 1; 2].
Proof.
  exact (@AltBlock_matched_kernels ZTensor ZLib ZLib_shape_laws 1 2
           (unit_params 2 1 0 1 0) (unit_params 2 1 0 1 0)
           (unit_params 3 1 0 1 0) 1 3 4 (zfull 1 [1; 1; 3; 4])
           eq_refl ltac:(lia) ltac:(lia) ltac:(lia) ltac:(lia)).
Defined.

(** ** The topologies: which inputs they accept *)

(** A forward pass of a list of layers in a library that follows the shape
    rules, from what the pass on shapes does. *)
Lemma accepts_from_shapes {T : Type} `{TensorOps T} `{HeadOps T}
    `{!ShapeLaws T} `{!HeadShapeLaws T}
    (ms : list (Layer T)) (x : T) (r : Shape) (P : Prop) :
  (P -> Sequential_forward (map (Layer_map tshape) ms) (tshape x) = Some r) ->
  (forall r', Sequential_forward (map (Layer_map tshape) ms) (tshape x)
              = Some r' -> P) ->
  (P -> exists y, Sequential_forward ms x = Some y /\ tshape y = r) /\
  (~ P -> Sequential_forward ms x = None).
Proof.
  intros Hok Hinv.
  pose proof (Sequential_forward_shape ms x) as Hs. split.
  - intros HP. rewrite (Hok HP) in Hs. now apply fmap_Some_inv in Hs.
  - intros HnP. destruct (Sequential_forward ms x) as [y|]; [|reflexivity].
    exfalso. apply HnP, (Hinv (tshape y)). now rewrite <- Hs.
Qed.

(** X7. The classification head accepts a 4-dimensional input of any
    non-empty height and width exactly when it has 64 channels, and then
    returns scores of shape (batch, 10). *)
Theorem head_accepts {T : Type} `{TensorOps T} `{HeadOps T}
    `{!ShapeLaws T} `{!HeadShapeLaws T}
    (wl bl : T) (n c h w : nat) (x : T) :
  tshape x = [n; c; h; w] -> 1 <= h -> 1 <= w ->
  (c = 64 -> exists y, Sequential_forward (head wl bl) x = Some y /\
                       tshape y = [n; 10]) /\
  (c <> 64 -> Sequential_forward (head wl bl) x = None).
Proof.
  intros Hx _ _. apply accepts_from_shapes; rewrite Hx.
  - intros ->. apply head_on_shapes.
  - intros r' Hrun.
    change (map (Layer_map tshape) (head wl bl))
      with (head (tshape wl) (tshape bl)) in Hrun.
    apply head_on_shapes_Some in Hrun as (n' & h' & w' & Heq & _).
    congruence.
Qed.

(** X7 on shapes: 64 channels accepted, 32 rejected. *)
Lemma head_accepts_witness :
  (exists y : Shape, Sequential_forward (head [] []) [7; 64; 10; 10] = Some y /\
                     y = [7; 10]) /\
  Sequential_forward (head ([] : Shape) []) [7; 32; 10; 10] = None.
Proof.
  split.
  - exact (proj1 (@head_accepts Shape ShapeLib ShapeHead ShapeLib_shape_laws
                    ShapeHead_shape_laws [] [] 7 64 10 10 [7; 64; 10; 10]
                    eq_refl ltac:(lia) ltac:(lia)) eq_refl).
  - exact (proj2 (@head_accepts Shape ShapeLib ShapeHead ShapeLib_shape_laws
                    ShapeHead_shape_laws [] [] 7 32 10 10 [7; 32; 10; 10]
                    eq_refl ltac:(lia) ltac:(lia)) ltac:(lia)).
Defined.

(** X8. In a library that follows the shape rules, [net0] returns scores
    of shape (batch, 10) on an input of shape (batch, c, h, w) exactly when
    it has 3 channels, height and width of at least 23, and more than one
    value per channel in the map its last unit normalises, that is
    batch * (h - 22) * (w - 22) is not 1; it raises on every other
    input of four dimensions. *)
Theorem net0_accepts {T : Type} `{TensorOps T} `{HeadOps T}
    `{!ShapeLaws T} `{!HeadShapeLaws T}
    (ws : nat -> BlockParams T) (wl bl : T) (batch c h w : nat) (x : T) :
  tshape x = [batch; c; h; w] ->
  (c = 3 /\ 23 <= h /\ 23 <= w /\ batch * (h - 22) * (w - 22) <> 1 ->
   exists y, Sequential_forward (net0 ws wl bl) x = Some y /\
             tshape y = [batch; 10]) /\
  (~ (c = 3 /\ 23 <= h /\ 23 <= w /\ batch * (h - 22) * (w - 22) <> 1) ->
   Sequential_forward (net0 ws wl bl) x = None).
Proof.
  intros Hx. apply accepts_from_shapes; rewrite Hx;
    change (map (Layer_map tshape) (net0 ws wl bl))
      with (net0 (fun k => BlockParams_map tshape (ws k))
              (tshape wl) (tshape bl)).
  - intros (-> & Hh & Hw & Hv). now apply net0_on_shapes.
  - intros r'. apply net0_on_shapes_Some.
Qed.

(** X8 on shapes: two 23x23 images are accepted; a single 23x23 image
    and a 22x23 image are not. *)
Lemma net0_accepts_witness :
  (exists y : Shape,
     Sequential_forward (net0 (fun _ => mkBlockParams [] [] [] []) [] [])
                        [2; 3; 23; 23] = Some y /\
     y = [2; 10]) /\
  Sequential_forward (net0 (fun _ => mkBlockParams [] [] [] []) [] [])
                     ([1; 3; 23; 23] : Shape) = None /\
  Sequential_forward (net0 (fun _ => mkBlockParams [] [] [] []) [] [])
                     ([2; 3; 22; 23] : Shape) = None.
Proof.
  split; [|split].
  - apply (proj1 (@net0_accepts Shape ShapeLib ShapeHead
                    ShapeLib_shape_laws ShapeHead_shape_laws
                    (fun _ => mkBlockParams [] [] [] []) [] []
                    2 3 23 23 [2; 3; 23; 23] eq_refl)).
    lia.
  - apply (proj2 (@net0_accepts Shape ShapeLib ShapeHead
                    ShapeLib_shape_laws ShapeHead_shape_laws
                    (fun _ => mkBlockParams [] [] [] []) [] []
                    1 3 23 23 [1; 3; 23; 23] eq_refl)).
    lia.
  - apply (proj2 (@net0_accepts Shape ShapeLib ShapeHead
                    ShapeLib_shape_laws ShapeHead_shape_laws
                    (fun _ => mkBlockParams [] [] [] []) [] []
                    2 3 22 23 [2; 3; 22; 23] eq_refl)).
    lia.
Defined.

(** X9. In a library that follows the shape rules, [net1] returns scores
    of shape (batch, 10) on an input of shape (batch, c, h, w) exactly when
    it has 3 channels, height and width of at least 23, and more than one
    value per channel in the map its last unit normalises, that is
    batch * (h - 22) * (w - 22) is not 1; it raises on every other
    input of four dimensions. *)
Theorem net1_accepts {T : Type} `{TensorOps T} `{HeadOps T}
    `{!ShapeLaws T} `{!HeadShapeLaws T}
    (ws : nat -> BlockParams T) (wl bl : T) (batch c h w : nat) (x : T) :
  tshape x = [batch; c; h; w] ->
  (c = 3 /\ 23 <= h /\ 23 <= w /\ batch * (h - 22) * (w - 22) <> 1 ->
   exists y, Sequential_forward (net1 ws wl bl) x = Some y /\
             tshape y = [batch; 10]) /\
  (~ (c = 3 /\ 23 <= h /\ 23 <= w /\ batch * (h - 22) * (w - 22) <> 1) ->
   Sequential_forward (net1 ws wl bl) x = None).
Proof.
  intros Hx. apply accepts_from_shapes; rewrite Hx;
    change (map (Layer_map tshape) (net1 ws wl bl))
      with (net1 (fun k => BlockParams_map tshape (ws k))
              (tshape wl) (tshape bl)).
  - intros (-> & Hh & Hw & Hv). now apply net1_on_shapes.
  - intros r'. apply net1_on_shapes_Some.
Qed.

(** X9 on shapes: two 23x23 images are accepted; a single 23x23 image
    and a 22x23 image are not. *)
Lemma net1_accepts_witness :
  (exists y : Shape,
     Sequential_forward (net1 (fun _ => mkBlockParams [] [] [] []) [] [])
                        [2; 3; 23; 23] = Some y /\
     y = [2; 10]) /\
  Sequential_forward (net1 (fun _ => mkBlockParams [] [] [] []) [] [])
                     ([1; 3; 23; 23] : Shape) = None /\
  Sequential_forward (net1 (fun _ => mkBlockParams [] [] [] []) [] [])
                     ([2; 3; 22; 23] : Shape) = None.
Proof.
  split; [|split].
  - apply (proj1 (@net1_accepts Shape ShapeLib ShapeHead
                    ShapeLib_shape_laws ShapeHead_shape_laws
                    (fun _ => mkBlockParams [] [] [] []) [] []
                    2 3 23 23 [2; 3; 23; 23] eq_refl)).
    lia.
  - apply (proj2 (@net1_accepts Shape ShapeLib ShapeHead
                    ShapeLib_shape_laws ShapeHead_shape_laws
                    (fun _ => mkBlockParams [] [] [] []) [] []
                    1 3 23 23 [1; 3; 23; 23] eq_refl)).
    lia.
  - apply (proj2 (@net1_accepts Shape ShapeLib ShapeHead
                    ShapeLib_shape_laws ShapeHead_shape_laws
                    (fun _ => mkBlockParams [] [] [] []) [] []
                    2 3 22 23 [2; 3; 22; 23] eq_refl)).
    lia.
Defined.

(** X10. In a library that follows the shape rules, [net2] returns scores
    of shape (batch, 10) on an input of shape (batch, c, h, w) exactly when
    it has 3 channels, height and width of at least 11, and more than one
    value per channel in the map its last unit normalises, that is
    batch * (h - 10) * (w - 10) is not 1; it raises on every other
    input of four dimensions. *)
Theorem net2_accepts {T : Type} `{TensorOps T} `{HeadOps T}
    `{!ShapeLaws T} `{!HeadShapeLaws T}
    (ws : nat -> BlockParams T) (wl bl : T) (batch c h w : nat) (x : T) :
  tshape x = [batch; c; h; w] ->
  (c = 3 /\ 11 <= h /\ 11 <= w /\ batch * (h - 10) * (w - 10) <> 1 ->
   exists y, Sequential_forward (net2 ws wl bl) x = Some y /\
             tshape y = [batch; 10]) /\
  (~ (c = 3 /\ 11 <= h /\ 11 <= w /\ batch * (h - 10) * (w - 10) <> 1) ->
   Sequential_forward (net2 ws wl bl) x = None).
Proof.
  intros Hx. apply accepts_from_shapes; rewrite Hx;
    change (map (Layer_map tshape) (net2 ws wl bl))
      with (net2 (fun k => BlockParams_map tshape (ws k))
              (tshape wl) (tshape bl)).
  - intros (-> & Hh & Hw & Hv). now apply net2_on_shapes.
  - intros r'. apply net2_on_shapes_Some.
Qed.

(** X10 on shapes: two 11x11 images are accepted; a single 11x11 image
    and a 10x11 image are not. *)
Lemma net2_accepts_witness :
  (exists y : Shape,
     Sequential_forward (net2 (fun _ => mkBlockParams [] [] [] []) [] [])
                        [2; 3; 11; 11] = Some y /\
     y = [2; 10]) /\
  Sequential_forward (net2 (fun _ => mkBlockParams [] [] [] []) [] [])
                     ([1; 3; 11; 11] : Shape) = None /\
  Sequential_forward (net2 (fun _ => mkBlockParams [] [] [] []) [] [])
                     ([2; 3; 10; 11] : Shape) = None.
Proof.
  split; [|split].
  - apply (proj1 (@net2_accepts Shape ShapeLib ShapeHead
                    ShapeLib_shape_laws ShapeHead_shape_laws
                    (fun _ => mkBlockParams [] [] [] []) [] []
                    2 3 11 11 [2; 3; 11; 11] eq_refl)).
    lia.
  - apply (proj2 (@net2_accepts Shape ShapeLib ShapeHead
                    ShapeLib_shape_laws ShapeHead_shape_laws
                    (fun _ => mkBlockParams [] [] [] []) [] []
                    1 3 11 11 [1; 3; 11; 11] eq_refl)).
    lia.
  - apply (proj2 (@net2_accepts Shape ShapeLib ShapeHead
                    ShapeLib_shape_laws ShapeHead_shape_laws
                    (fun _ => mkBlockParams [] [] [] []) [] []
                    2 3 10 11 [2; 3; 10; 11] eq_refl)).
    lia.
Defined.

(** X11. In a library that follows the shape rules, [net3] returns scores
    of shape (batch, 10) on an input of shape (batch, c, h, w) exactly when
    it has 3 channels, height and width of at least 23, and more than one
    value per channel in the map its last unit normalises, that is
    batch * (h - 22) * (w - 22) is not 1; it raises on every other
    input of four dimensions. *)
Theorem net3_accepts {T : Type} `{TensorOps T} `{HeadOps T}
    `{!ShapeLaws T} `{!HeadShapeLaws T}
    (ws : nat -> BlockParams T) (wl bl : T) (batch c h w : nat) (x : T) :
  tshape x = [batch; c; h; w] ->
  (c = 3 /\ 23 <= h /\ 23 <= w /\ batch * (h - 22) * (w - 22) <> 1 ->
   exists y, Sequential_forward (net3 ws wl bl) x = Some y /\
             tshape y = [batch; 10]) /\
  (~ (c = 3 /\ 23 <= h /\ 23 <= w /\ batch * (h - 22) * (w - 22) <> 1) ->
   Sequential_forward (net3 ws wl bl) x = None).
Proof.
  intros Hx. apply accepts_from_shapes; rewrite Hx;
    change (map (Layer_map tshape) (net3 ws wl bl))
      with (net3 (fun k => BlockParams_map tshape (ws k))
              (tshape wl) (tshape bl)).
  - intros (-> & Hh & Hw & Hv). now apply net3_on_shapes.
  - intros r'. apply net3_on_shapes_Some.
Qed.

(** X11 on shapes: two 23x23 images are accepted; a single 23x23 image
    and a 22x23 image are not. *)
Lemma net3_accepts_witness :
  (exists y : Shape,
     Sequential_forward (net3 (fun _ => mkBlockParams [] [] [] []) [] [])
                        [2; 3; 23; 23] = Some y /\
     y = [2; 10]) /\
  Sequential_forward (net3 (fun _ => mkBlockParams [] [] [] []) [] [])
                     ([1; 3; 23; 23] : Shape) = None /\
  Sequential_forward (net3 (fun _ => mkBlockParams [] [] [] []) [] [])
                     ([2; 3; 22; 23] : Shape) = None.
Proof.
  split; [|split].
  - apply (proj1 (@net3_accepts Shape ShapeLib ShapeHead
                    ShapeLib_shape_laws ShapeHead_shape_laws
                    (fun _ => mkBlockParams [] [] [] []) [] []
                    2 3 23 23 [2; 3; 23; 23] eq_refl)).
    lia.
  - apply (proj2 (@net3_accepts Shape ShapeLib ShapeHead
                    ShapeLib_shape_laws ShapeHead_shape_laws
                    (fun _ => mkBlockParams [] [] [] []) [] []
                    1 3 23 23 [1; 3; 23; 23] eq_refl)).
    lia.
  - apply (proj2 (@net3_accepts Shape ShapeLib ShapeHead
                    ShapeLib_shape_laws ShapeHead_shape_laws
                    (fun _ => mkBlockParams [] [] [] []) [] []
                    2 3 22 23 [2; 3; 22; 23] eq_refl)).
    lia.
Defined.

(** * Further properties of the training loop *)

(** ** The evaluation loop: losses and calls *)

Section EvalRun.
Context {E : TrainEnv}.

Lemma eval_batch_run (acc acc' : Q * nat) (b : Batch) (w w' : World) :
  eval_batch acc b w = Some (acc', w') ->
  fst acc' = (fst acc + item (criterion (fst (model_call (st w) (fst b)))
                                        (snd b)))%Q /\
  st w' = snd (model_call (st w) (fst b)) /\
  log w' = log w ++ eval_events b.
Proof.
  unfold eval_batch, bind, call_ret, of_option, ret. cbn [st log].
  destruct (model_call (st w) (fst b)) as [out s']. cbn [st log fst snd].
  destruct (predictions out) as [preds|]; [|discriminate].
  destruct (eq_count preds (snd b)) as [k|]; [|discriminate].
  intros [= <- <-]. cbn [fst st log]. repeat split.
  unfold eval_events. now rewrite <- app_assoc.
Qed.

Lemma eval_batches_run (l : list Batch) :
  forall (acc acc' : Q * nat) (w w' : World),
  for_each eval_batch acc l w = Some (acc', w') ->
  fst acc' = fold_left Qplus (eval_losses (st w) l) (fst acc) /\
  log w' = log w ++ flat_map eval_events l.
Proof.
  induction l as [|b l IH]; intros acc acc' w w' Hrun.
  - injection Hrun as <- <-. cbn. now rewrite app_nil_r.
  - cbn [for_each] in Hrun. unfold bind at 1 in Hrun.
    destruct (eval_batch acc b w) as [[acc1 w1]|] eqn:Hb; [|discriminate].
    apply eval_batch_run in Hb as (Hacc & Hst & Hlog).
    apply IH in Hrun as (-> & ->).
    cbn [eval_losses flat_map fold_left].
    destruct (model_call (st w) (fst b)) as [out s']. cbn [fst snd] in *.
    rewrite Hacc, Hst, Hlog. cbn [fold_left]. now rewrite <- app_assoc.
Qed.

(** The evaluation phase, when it does not raise: the validation loss and
    the calls made. *)
Lemma eval_phase_run (w w' : World) (vl ac : Q) :
  eval_phase w = Some ((vl, ac), w') ->
  vl = (fold_left Qplus
          (eval_losses (model_eval (set_grad_enabled false (st w)))
             (DataLoader_iter (sampler 0) testloader)) 0
        / inject_Z (Z.of_nat (DataLoader_len testloader)))%Q /\
  log w' = log w ++ [ENoGrad true; EModelEval]
             ++ flat_map eval_events (DataLoader_iter (sampler 0) testloader)
             ++ [ENoGrad false].
Proof.
  unfold eval_phase. unfold bind at 1 2, call. cbn [st log].
  unfold bind at 1.
  destruct (for_each eval_batch _ _ _) as [[r w1]|] eqn:Hloop; [|discriminate].
  unfold bind at 1.
  destruct (truediv (fst r) _ w1) as [[q1 w2]|] eqn:Hd1; [|discriminate].
  unfold bind at 1.
  destruct (truediv _ (length testset) w2) as [[q2 w3]|] eqn:Hd2;
    [|discriminate].
  unfold bind, call, ret. intros [= <- <- <-].
  apply truediv_inv in Hd1 as (_ & -> & ->).
  apply truediv_inv in Hd2 as (_ & _ & ->).
  apply eval_batches_run in Hloop as (-> & ->).
  cbn [fst st log]. split; [reflexivity|].
  now rewrite <- !app_assoc.
Qed.

Lemma train_phase_log (e : nat) (w w' : World) (q : Q) :
  train_phase e w = Some (q, w') ->
  log w' = log w ++ EModelTrain
             :: flat_map batch_events (DataLoader_iter (sampler e) trainloader).
Proof.
  unfold train_phase, bind at 1, call. cbn [st log]. unfold bind at 1.
  match goal with
  | |- context [for_each train_batch ?c ?l ?w0] =>
      destruct (train_batches_run l c w0) as [s' ->]
  end.
  intros Hdiv. apply truediv_inv in Hdiv as (_ & _ & ->).
  cbn [log]. now rewrite <- app_assoc.
Qed.

Lemma eval_losses_nonneg `{!LossNonneg E} (l : list Batch) :
  forall s, Forall (fun q => (0 <= q)%Q) (eval_losses s l).
Proof.
  induction l as [|b l IH]; intros s; [constructor|].
  cbn [eval_losses]. destruct (model_call s (fst b)) as [out s'].
  constructor; [apply loss_nonneg|apply IH].
Qed.

End EvalRun.

(** X12. The recorded valid_loss of an epoch is the sum of the losses of the
    validation batches, in order, divided by the number of validation
    batches [len(testloader)]. *)
Theorem valid_loss_spec {E : TrainEnv} `{!ModelOK E} :
  testset <> [] ->
  (forall w : World,
     exists (ac : Q) (w' : World),
       eval_phase w
       = Some (((fold_left Qplus
                   (eval_losses (model_eval (set_grad_enabled false (st w)))
                      (DataLoader_iter (sampler 0) testloader)) 0
                 / inject_Z (Z.of_nat (DataLoader_len testloader)))%Q, ac),
               w')) /\
  length (DataLoader_iter (sampler 0) testloader) = DataLoader_len testloader /\
  (forall (epochs : nat) (w0 wN : World) (ms : list Metrics) (e : nat)
          (m : Metrics),
     train_loop epochs w0 = Some (ms, wN) ->
     ms !! e = Some m ->
     exists w : World,
       valid_loss m
       = (fold_left Qplus
            (eval_losses (model_eval (set_grad_enabled false (st w)))
               (DataLoader_iter (sampler 0) testloader)) 0
          / inject_Z (Z.of_nat (DataLoader_len testloader)))%Q).
Proof.
  intros Hne. split; [|split].
  - intros w. destruct (eval_phase_succeeds w Hne) as [[[vl ac] w'] Hrun].
    destruct (eval_phase_run _ _ _ _ Hrun) as (-> & _). eauto.
  - apply testloader_iter_length.
  - intros epochs w0 wN ms e m Hrun Hm.
    apply train_loop_rows in Hrun.
    destruct (Forall2_lookup_r _ _ _ _ _ Hrun Hm) as (e' & _ & wi & wi' & Hep).
    apply epoch_phases in Hep as (w1 & _ & Hev).
    apply eval_phase_run in Hev as (Hvl & _). eauto.
Qed.

(** X12 at the small environment: two validation batches of 128 and 72
    rows. *)
Lemma valid_loss_spec_witness :
  exists (ac : Q) (w' : World),
    eval_phase (E := ToyEnv) toy_world = Some (((200 # 2)%Q, ac), w').
Proof.
  assert (Hne : testset (TrainEnv := ToyEnv) <> []) by (simpl; discriminate).
  destruct (proj1 (valid_loss_spec Hne) toy_world) as (ac & w' & Hrun).
  exists ac, w'. exact Hrun.
Defined.

(** X13. Given that the loss of every batch is non-negative, the valid_loss
    of every row recorded by [train_loop] is at least 0. *)
Theorem valid_loss_nonneg {E : TrainEnv} `{!LossNonneg E}
    (epochs : nat) (w w' : World) (ms : list Metrics) :
  train_loop epochs w = Some (ms, w') ->
  Forall (fun m => (0 <= valid_loss m)%Q) ms.
Proof.
  intros Hrun. apply train_loop_rows in Hrun.
  apply Forall_forall. intros m Hm.
  apply list_elem_of_lookup in Hm as [i Hi].
  destruct (Forall2_lookup_r _ _ _ _ _ Hrun Hi) as (e & _ & wi & wi' & Hep).
  apply epoch_phases in Hep as (w1 & _ & Hev).
  pose proof Hev as Hev'. apply eval_phase_run in Hev as (-> & _).
  apply Qdiv_nat_nonneg.
  - apply fold_left_Qplus_nonneg; [apply eval_losses_nonneg|apply Qle_refl].
  - unfold eval_phase in Hev'. unfold bind at 1 2, call in Hev'.
    unfold bind at 1 in Hev'.
    destruct (for_each eval_batch _ _ _) as [[r w2]|]; [|discriminate].
    unfold bind at 1 in Hev'.
    destruct (truediv (fst r) _ w2) as [[q1 w3]|] eqn:Hd; [|discriminate].
    now apply truediv_inv in Hd.
Qed.

(** X13 at two epochs of the small environment. *)
Lemma valid_loss_nonneg_witness :
  exists ms w',
    train_loop (E := ToyEnv) 2 toy_world = Some (ms, w') /\
    Forall (fun m => (0 <= valid_loss m)%Q) ms.
Proof.
  destruct (train_loop_succeeds (E := ToyEnv) 2 toy_world)
    as (ms & w' & Hrun & _); [simpl; discriminate..|].
  exists ms, w'. split; [exact Hrun|].
  exact (valid_loss_nonneg 2 toy_world w' ms Hrun).
Defined.

(** ** Calls made by the two phases *)

Section CallCounts.
Context {E : TrainEnv}.

Lemma steps_app (l1 l2 : list Event) : steps (l1 ++ l2) = steps l1 + steps l2.
Proof. unfold steps. now rewrite List.filter_app, length_app. Qed.

Lemma model_calls_app (l1 l2 : list Event) :
  model_calls (l1 ++ l2) = model_calls l1 + model_calls l2.
Proof. unfold model_calls. now rewrite List.filter_app, length_app. Qed.

Lemma steps_batch_events (l : list Batch) :
  steps (flat_map batch_events l) = length l.
Proof.
  induction l as [|b l IH]; [reflexivity|].
  cbn [flat_map]. rewrite steps_app, IH. reflexivity.
Qed.

Lemma steps_eval_events (l : list Batch) :
  steps (flat_map eval_events l) = 0.
Proof.
  induction l as [|b l IH]; [reflexivity|].
  cbn [flat_map]. rewrite steps_app, IH. reflexivity.
Qed.

Lemma model_calls_batch_events (l : list Batch) :
  model_calls (flat_map batch_events l) = length l.
Proof.
  induction l as [|b l IH]; [reflexivity|].
  cbn [flat_map]. rewrite model_calls_app, IH. reflexivity.
Qed.

Lemma model_calls_eval_events (l : list Batch) :
  model_calls (flat_map eval_events l) = length l.
Proof.
  induction l as [|b l IH]; [reflexivity|].
  cbn [flat_map]. rewrite model_calls_app, IH. reflexivity.
Qed.

Lemma no_update_eval_events (l : list Batch) :
  List.filter is_update (flat_map eval_events l) = [].
Proof.
  induction l as [|b l IH]; [reflexivity|].
  cbn [flat_map]. now rewrite List.filter_app, IH.
Qed.

(** Calls added to the log by one epoch. *)
Lemma epoch_log `{!SamplerOK E} (e : nat) (w w' : World) (m : Metrics) :
  epoch e w = Some (m, w') ->
  steps (log w') = steps (log w) + DataLoader_len trainloader /\
  model_calls (log w')
  = model_calls (log w) + (DataLoader_len trainloader
                           + DataLoader_len testloader).
Proof.
  intros Hep. apply epoch_phases in Hep as (w1 & Htp & Hev).
  apply train_phase_log in Htp. apply eval_phase_run in Hev as (_ & Hlog).
  rewrite Hlog, Htp. split.
  - rewrite !steps_app. change (EModelTrain :: ?l) with ([EModelTrain] ++ l).
    rewrite !steps_app, steps_batch_events, steps_eval_events. unfold Batch.
    rewrite trainloader_iter_length. cbn. lia.
  - rewrite !model_calls_app.
    change (EModelTrain :: ?l) with ([EModelTrain] ++ l).
    rewrite !model_calls_app, model_calls_batch_events,
      model_calls_eval_events. unfold Batch.
    rewrite trainloader_iter_length, testloader_iter_length.
    cbn. lia.
Qed.

Lemma epochs_loop_log `{!SamplerOK E} (es : list nat) :
  forall (acc ms : list Metrics) (w w' : World),
  epochs_loop es acc w = Some (ms, w') ->
  steps (log w') = steps (log w) + length es * DataLoader_len trainloader /\
  model_calls (log w')
  = model_calls (log w)
    + length es * (DataLoader_len trainloader + DataLoader_len testloader).
Proof.
  induction es as [|e es IH]; intros acc ms w w' Hrun.
  - injection Hrun as <- <-. cbn. lia.
  - cbn [epochs_loop] in Hrun. unfold bind at 1 in Hrun.
    destruct (epoch e w) as [[m w1]|] eqn:He; [|discriminate].
    apply epoch_log in He as (Hs1 & Hc1).
    apply IH in Hrun as (Hs & Hc). cbn [length]. lia.
Qed.

End CallCounts.

(** X14. The evaluation phase makes no call that touches gradients or
    parameters: between switching gradient tracking off and on again it
    calls [model.eval()] once and, per validation batch, the model and the
    criterion. *)
Theorem eval_phase_no_update {E : TrainEnv} (w w' : World) (r : Q * Q) :
  eval_phase w = Some (r, w') ->
  log w' = log w ++ [ENoGrad true; EModelEval]
             ++ flat_map eval_events (DataLoader_iter (sampler 0) testloader)
             ++ [ENoGrad false] /\
  List.filter is_update (log w') = List.filter is_update (log w).
Proof.
  destruct r as [vl ac]. intros Hrun.
  apply eval_phase_run in Hrun as (_ & Hlog). split; [exact Hlog|].
  rewrite Hlog, !List.filter_app, no_update_eval_events.
  cbn. now rewrite app_nil_r.
Qed.

(** X14 at the small environment. *)
Lemma eval_phase_no_update_witness :
  exists r w',
    eval_phase (E := ToyEnv) toy_world = Some (r, w') /\
    List.filter is_update (log w') = [].
Proof.
  destruct (eval_phase_succeeds (E := ToyEnv) toy_world) as [[r w'] Hrun];
    [simpl; discriminate|].
  exists r, w'. split; [exact Hrun|].
  exact (proj2 (eval_phase_no_update toy_world w' r Hrun)).
Defined.

(** X15. A run of [train_loop] over [epochs] epochs makes
    [epochs * len(trainloader)] optimizer steps and calls the model
    [epochs * (len(trainloader) + len(testloader))] times. *)
Theorem train_loop_call_counts {E : TrainEnv} `{!SamplerOK E}
    (epochs : nat) (w w' : World) (ms : list Metrics) :
  train_loop epochs w = Some (ms, w') ->
  steps (log w') = steps (log w) + epochs * DataLoader_len trainloader /\
  model_calls (log w')
  = model_calls (log w)
    + epochs * (DataLoader_len trainloader + DataLoader_len testloader).
Proof.
  intros Hrun. apply epochs_loop_log in Hrun. now rewrite length_seq in Hrun.
Qed.

(** X15 at two epochs of the small environment: 3 training and 2
    validation batches per epoch. *)
Lemma train_loop_call_counts_witness :
  exists ms w',
    train_loop (E := ToyEnv) 2 toy_world = Some (ms, w') /\
    steps (log w') = 6 /\ model_calls (log w') = 10.
Proof.
  destruct (train_loop_succeeds (E := ToyEnv) 2 toy_world)
    as (ms & w' & Hrun & _); [simpl; discriminate..|].
  exists ms, w'. split; [exact Hrun|].
  exact (train_loop_call_counts 2 toy_world w' ms Hrun).
Defined.

(** ** When the loop raises, and how runs extend *)

Section LoopRuns.
Context {E : TrainEnv}.

Lemma DataLoader_len_zero (sh : bool) :
  DataLoader_len (mkDataLoader ([] : list (Img * nat)) bs sh) = 0.
Proof. reflexivity. Qed.

Lemma epochs_loop_app (es1 es2 : list nat) :
  forall (acc : list Metrics) (w : World),
  epochs_loop (es1 ++ es2) acc w
  = bind (epochs_loop es1 acc) (fun ms => epochs_loop es2 ms) w.
Proof.
  induction es1 as [|e es1 IH]; intros acc w; [reflexivity|].
  cbn [app epochs_loop]. unfold bind.
  destruct (epoch e w) as [[m w1]|]; [|reflexivity].
  rewrite IH. reflexivity.
Qed.

(** A run that returns went through a first epoch that returned. *)
Lemma train_loop_first_epoch (n : nat) (w : World) :
  is_Some (train_loop (S n) w) -> is_Some (epoch 0 w).
Proof.
  unfold train_loop. cbn [seq epochs_loop]. unfold bind at 1.
  destruct (epoch 0 w); [eauto|]. intros [x Hx]. discriminate.
Qed.

End LoopRuns.

(** X16. With a model that returns one non-empty score row per image and a
    sampler that permutes, a run of at least one epoch returns exactly when
    neither the training set nor the test set is empty; on an empty set the
    division by the number of batches raises. *)
Theorem train_loop_returns_iff {E : TrainEnv} `{!ModelOK E} `{!SamplerOK E}
    (n : nat) (w : World) :
  is_Some (train_loop (S n) w) <-> trainset <> [] /\ testset <> [].
Proof.
  split.
  - intros Hrun. apply train_loop_first_epoch in Hrun as [[m w'] Hep].
    apply epoch_phases in Hep as (w1 & Htp & Hev). split.
    + intros Hnil.
      unfold train_phase, bind at 1, call in Htp. unfold bind at 1 in Htp.
      destruct (for_each train_batch _ _ _) as [[c w2]|]; [|discriminate].
      apply truediv_inv in Htp as (Hlen & _).
      apply Hlen. unfold trainloader. rewrite Hnil. apply DataLoader_len_zero.
    + now apply eval_phase_inv in Hev as (_ & _ & _ & Hne & _).
  - intros (Htr & Hte).
    destruct (train_loop_succeeds (S n) w Htr Hte) as (ms & w' & -> & _).
    eauto.
Qed.

(** X16 at the small environment, whose two data sets are not empty. *)
Lemma train_loop_returns_iff_witness :
  is_Some (train_loop (E := ToyEnv) 1 toy_world).
Proof.
  apply (proj2 (train_loop_returns_iff (E := ToyEnv) 0 toy_world)).
  split; simpl; discriminate.
Defined.

(** X17. Running one more epoch only appends a row: a run of [n + 1] epochs
    is a run of [n] epochs followed by epoch [n], whose row is added after
    the [n] rows already recorded. *)
Theorem train_loop_extends {E : TrainEnv} (n : nat) (w : World) :
  train_loop (S n) w
  = (let* ms := train_loop n in
     let* m := epoch n in
     ret (ms ++ [m])) w.
Proof.
  unfold train_loop. rewrite seq_S, epochs_loop_app. reflexivity.
Qed.

(** ** The first maximum of a score row *)

Lemma is_argmax_unique (r : list Q) (p q : nat) :
  is_argmax r p -> is_argmax r q -> p = q.
Proof.
  intros (vp & Hp & Hmaxp & Hfirstp) (vq & Hq & Hmaxq & Hfirstq).
  destruct (lt_eq_lt_dec p q) as [[Hlt|Heq]|Hgt]; [|exact Heq|].
  - exfalso. apply (Qlt_not_le _ _ (Hfirstq p vp Hlt Hp)). eauto.
  - exfalso. apply (Qlt_not_le _ _ (Hfirstp q vq Hgt Hq)). eauto.
Qed.

Lemma max_index_complete (r : list Q) (p : nat) :
  is_argmax r p -> max_index r = Some p.
Proof.
  intros Hp. destruct (max_index r) as [q|] eqn:Hq.
  - f_equal. symmetry. eapply is_argmax_unique; [exact Hp|].
    now apply max_index_spec.
  - destruct r; [|discriminate].
    destruct Hp as (v & Hv & _). discriminate.
Qed.

(** ** Sizes of the batches *)

Lemma chunks_fuel_sizes {A : Type} (n fuel : nat) :
  0 < n -> forall l : list A, length l <= fuel ->
  Forall (fun c => 1 <= length c <= n) (chunks_fuel fuel n l) /\
  (forall i c, chunks_fuel fuel n l !! i = Some c ->
               S i < length (chunks_fuel fuel n l) -> length c = n).
Proof.
  intros Hn. induction fuel as [|fuel IH]; intros l Hl.
  - split; [constructor|]. intros i c Hc. discriminate.
  - destruct l as [|a l]; [split; [constructor|]; intros i c Hc; discriminate|].
    cbn [chunks_fuel].
    assert (Hd : length (drop n (a :: l)) <= fuel)
      by (rewrite length_drop; simpl in *; lia).
    destruct (IH _ Hd) as (Hall & Hfull). split.
    + constructor; [|exact Hall]. rewrite length_take. simpl. lia.
    + intros [|i] c Hc Hi.
      * injection Hc as <-. rewrite length_take.
        cbn [length] in Hi.
        destruct (chunks_fuel fuel n (drop n (a :: l))) as [|c' cs] eqn:Hcs;
          [cbn in Hi; lia|].
        assert (Hnil : drop n (a :: l) <> []).
        { intros Hnil. rewrite Hnil in Hcs. destruct fuel; discriminate. }
        destruct (le_lt_dec (length (a :: l)) n) as [Hle|Hgt]; [|lia].
        exfalso. apply Hnil. now apply drop_ge.
      * cbn [lookup] in Hc. apply (Hfull i c Hc). cbn [length] in Hi. lia.
Qed.

(** X19. Every batch a loader yields holds between 1 and [batch_size]
    images, with as many labels as images, and every batch but the last
    holds exactly [batch_size] of them. *)
Theorem DataLoader_batch_sizes {I : Type}
    (perm : list (I * nat) -> list (I * nat)) (dl : DataLoader (I * nat)) :
  0 < batch_size dl ->
  Forall (fun b => 1 <= length (fst b) <= batch_size dl /\
                   length (snd b) = length (fst b))
         (DataLoader_iter perm dl) /\
  (forall i b, DataLoader_iter perm dl !! i = Some b ->
               S i < length (DataLoader_iter perm dl) ->
               length (fst b) = batch_size dl).
Proof.
  intros Hn. unfold DataLoader_iter.
  set (l := if shuffle dl then perm (dataset dl) else dataset dl).
  destruct (chunks_fuel_sizes (batch_size dl) (length l) Hn l (le_n _))
    as (Hall & Hfull).
  fold (chunks (batch_size dl) l) in Hall, Hfull. split.
  - apply Forall_forall. intros b Hb.
    apply list_elem_of_fmap in Hb as (c & -> & Hc).
    rewrite Forall_forall in Hall. specialize (Hall c Hc).
    unfold collate. cbn [fst snd]. rewrite !length_map. lia.
  - intros i b Hb Hi. rewrite length_map in Hi.
    change (map collate (chunks (batch_size dl) l))
      with (collate <$> chunks (batch_size dl) l) in Hb.
    rewrite list_lookup_fmap in Hb.
    destruct (chunks (batch_size dl) l !! i) as [c|] eqn:Hc; [|discriminate].
    injection Hb as <-. unfold collate. cbn [fst]. rewrite length_map.
    now apply (Hfull i c).
Qed.

(** X19 at the training loader of the small environment: 300 examples in
    batches of 128, 128 and 44. *)
Lemma DataLoader_batch_sizes_witness :
  map (fun b => length (fst b))
      (DataLoader_iter (sampler (TrainEnv := ToyEnv) 0)
         (trainloader (E := ToyEnv)))
  = [128; 128; 44] /\
  Forall (fun b => 1 <= length (fst b) <= 128 /\
                   length (snd b) = length (fst b))
         (DataLoader_iter (sampler (TrainEnv := ToyEnv) 0)
            (trainloader (E := ToyEnv))).
Proof.
  split; [reflexivity|].
  apply (DataLoader_batch_sizes (sampler (TrainEnv := ToyEnv) 0)
           (trainloader (E := ToyEnv))).
  unfold trainloader, bs. simpl. lia.
Defined.
